(** * convert_UGHEPMC2LHE: UPCgen HEPMC listing to Les Houches events

    A shallow embedding of [bin/UPCgen/macros/convert_UGHEPMC2LHE.cpp] and
    the properties of the event transform it implements.

    Conventions of the embedding.
    - A C++ [int] is a [Z]; the stream extractor only ever produces values
      of the 32-bit range, and the comparison of an [int] with a [size_t]
      on line 69 has its conversion written out.
    - A C++ [double] is a real number of [R]: the arithmetic of the
      converter is studied as exact arithmetic, rounding is not modelled.
    - The input file is the list of its newline-terminated lines, the
      output file is the list of the lines written to it, each line kept
      as the sequence of values streamed into it.
    - A [throw] ends the run with the lines written so far. *)

From Stdlib Require Import ZArith List String Ascii Bool Reals Lra Lia.
From Stdlib Require Import DecimalString.
From stdpp Require Import base list.

Import ListNotations.

Local Open Scope string_scope.
Local Open Scope list_scope.
Local Open Scope Z_scope.

(* ===================================================================== *)
(** * ROOT::Math Lorentz vectors *)
(* ===================================================================== *)

(** The two coordinate systems of Math/Vector4D.h used by the converter.
    [PxPyPzEVector] stores (x, y, z, t); [PxPyPzMVector] stores
    (x, y, z, m) and derives the energy, a negative [m] standing for a
    space-like vector of squared mass [- m * m].  GenVector exceptions
    are off, as they are by default, so no accessor throws.  The
    converter constructs a [PxPyPzMVector] with mass 0 only, for which the
    constructor stores its four arguments as they are. *)
Module GenVector.

Local Open Scope R_scope.

Record PxPyPzEVector : Type := mkE { fX : R; fY : R; fZ : R; fT : R }.

Record PxPyPzMVector : Type := mkM { mX : R; mY : R; mZ : R; mM : R }.

(** PxPyPzE4D accessors. *)
Definition Px (v : PxPyPzEVector) : R := fX v.
Definition Py (v : PxPyPzEVector) : R := fY v.
Definition Pz (v : PxPyPzEVector) : R := fZ v.
Definition E (v : PxPyPzEVector) : R := fT v.

(** [M2() = fT*fT - fX*fX - fY*fY - fZ*fZ]. *)
Definition M2 (v : PxPyPzEVector) : R :=
  fT v * fT v - fX v * fX v - fY v * fY v - fZ v * fZ v.

(** [M()]: [sqrt(mm)] when [mm >= 0], else [-sqrt(-mm)]. *)
Definition M (v : PxPyPzEVector) : R :=
  let mm := M2 v in
  if Rle_dec 0 mm then sqrt mm else - sqrt (- mm).

(** PxPyPzM4D accessors. *)
Definition mP2 (v : PxPyPzMVector) : R :=
  mX v * mX v + mY v * mY v + mZ v * mZ v.

(** [M2() = fM >= 0 ? fM*fM : -fM*fM]. *)
Definition mM2 (v : PxPyPzMVector) : R :=
  if Rle_dec 0 (mM v) then mM v * mM v else - (mM v * mM v).

(** [E2()]: [P2() + M2()], replaced by 0 when it is not positive. *)
Definition mE2 (v : PxPyPzMVector) : R :=
  let e2 := mP2 v + mM2 v in
  if Rlt_dec 0 e2 then e2 else 0.

Definition mE (v : PxPyPzMVector) : R := sqrt (mE2 v).

(** [LorentzVector<PxPyPzE4D>(const LorentzVector<PxPyPzM4D>&)]: the
    coordinates are copied through [X(), Y(), Z(), t()]. *)
Definition to_PxPyPzE (v : PxPyPzMVector) : PxPyPzEVector :=
  mkE (mX v) (mY v) (mZ v) (mE v).

(** [PxPyPzM4D::SetPxPyPzE]: assignment from a PxPyPzE4D, the mass
    taken from its [M()]. *)
Definition SetPxPyPzE (px py pz e : R) : PxPyPzMVector :=
  mkM px py pz (M (mkE px py pz e)).

(** [p4 += q], that is
    [SetXYZT(Px()+q.Px(), Py()+q.Py(), Pz()+q.Pz(), E()+q.E())]. *)
Definition add_assign (p4 : PxPyPzMVector) (q : PxPyPzEVector)
  : PxPyPzMVector :=
  SetPxPyPzE (mX p4 + Px q) (mY p4 + Py q) (mZ p4 + Pz q) (mE p4 + E q).

End GenVector.

Import GenVector.

(* ===================================================================== *)
(** * Particle records and the per-event transform *)
(* ===================================================================== *)

(** [std::tuple<int, int, int, PxPyPzEVector>]: pdg id, status, mother
    index, 4-momentum. *)
Record Particle : Type := mkParticle {
  pdgId : Z;
  status : Z;
  momI : Z;
  p : PxPyPzEVector
}.

(** A value-initialised element of [parV(nPar)]. *)
Definition Particle0 : Particle := mkParticle 0 0 0 (mkE 0 0 0 0).

(** [std::get<1>(pV) = s]. *)
Definition set_status (s : Z) (pV : Particle) : Particle :=
  mkParticle (pdgId pV) s (momI pV) (p pV).

(** Lines 78-81: the 4-momentum accumulated over the records whose status
    is 1, starting from [p4(0,0,0,0)]. *)
Definition sum_final (parV : list Particle) : PxPyPzMVector :=
  fold_left
    (fun p4 pV => if status pV =? 1 then add_assign p4 (p pV) else p4)
    parV (mkM 0 0 0 0).

(** The record emplaced by [parV.emplace(parV.begin(), 22, -1, 0,
    PxPyPzMVector(0, 0, pz, 0))]. *)
Definition fake_photon (pz : R) : Particle :=
  mkParticle 22 (-1) 0 (to_PxPyPzE (mkM 0 0 pz 0)).

(** Lines 82-83: two insertions at the front of the vector, one after the
    other. *)
Definition add_fake_photons (parV : list Particle) : list Particle :=
  let p4 := sum_final parV in
  let parV1 := fake_photon ((mZ p4 + mE p4) / 2) :: parV in
  fake_photon ((mZ p4 - mE p4) / 2) :: parV1.

(* ===================================================================== *)
(** * Output lines *)
(* ===================================================================== *)

Inductive OutLine : Type :=
| Text (s : string)
    (** a literal line *)
| InitBeams (beamE1 beamE2 : R)
    (** ["2212 2212 " << beamE1 << " " << beamE2 << " 0 0 0 0 3 1"] *)
| InitXsec (fidxsec totxsec : R)
    (** [fidxsec << " " << 0.0 << " " << totxsec << " 81"] *)
| EventCount (n : nat)
    (** [parV.size() << " 81 1.0 -1.0 -1.0 -1.0"] *)
| ParticleLine (pdg st : Z) (momS : string) (px py pz e m : R).
    (** [pdgId << " " << status << " " << momS << " 0 0 " << Px << " "
        << Py << " " << Pz << " " << E << " " << M
        << " 0.0000e+00 9.0000e+00"] *)

(** [std::to_string(int)]. *)
Definition to_string (z : Z) : string := NilZero.string_of_int (Z.to_int z).

(** Line 93.  [momI + 2] is an [int] addition; it stays in the [int]
    range in every event of fewer than 2^31 - 1 particles (see
    [mother_index_bound]). *)
Definition momS_of (st mom : Z) : string :=
  if 0 <? st
  then (if mom =? 0 then "1 2" else (to_string (mom + 2) ++ " 0")%string)
  else "0 0".

(** Line 94. *)
Definition write_particle (pV : Particle) : OutLine :=
  ParticleLine (pdgId pV) (status pV) (momS_of (status pV) (momI pV))
    (Px (p pV)) (Py (p pV)) (Pz (p pV)) (E (p pV)) (M (p pV)).

(** Lines 86-96, for the vector that already holds the two photons. *)
Definition write_event (parV : list Particle) : list OutLine :=
  [Text "<event>"; EventCount (length parV)]
    ++ map write_particle parV ++ [Text "</event>"].

(* ===================================================================== *)
(** * Text: std::string searches and formatted extraction *)
(* ===================================================================== *)

(** [line.rfind(pat) != std::string::npos]: [pat] occurs in [line]. *)
Fixpoint contains (pat line : string) : bool :=
  String.prefix pat line ||
  match line with
  | EmptyString => false
  | String _ line' => contains pat line'
  end.

(** [line.rfind(pat, 0) == 0]: a match that starts at or before position 0
    starts at position 0, so this is the prefix test. *)
Definition starts_with (pat line : string) : bool :=
  String.prefix pat line.

(** Formatted extraction from a [std::istringstream] in the "C" locale.
    An extractor takes the unread text and gives the value with the text
    left over, or [None] when it sets [failbit]; once [failbit] is set the
    extractions that follow in a chain do nothing and the chain tests
    false, which is the bind of the option monad. *)
Module Extract.

(** [std::isspace]. *)
Definition is_space (c : ascii) : bool :=
  let n := Z.of_N (N_of_ascii c) in
  (n =? 32) || ((9 <=? n) && (n <=? 13)).

Definition digit_of (c : ascii) : option Z :=
  let n := Z.of_N (N_of_ascii c) in
  if (48 <=? n) && (n <=? 57) then Some (n - 48) else None.

Fixpoint skipws (s : string) : string :=
  match s with
  | String c s' => if is_space c then skipws s' else s
  | EmptyString => EmptyString
  end.

(** The characters up to the next white space. *)
Fixpoint token (s : string) : string * string :=
  match s with
  | String c s' =>
      if is_space c then (EmptyString, s)
      else let '(t, r) := token s' in (String c t, r)
  | EmptyString => (EmptyString, EmptyString)
  end.

(** [is >> label] for a [std::string]. *)
Definition get_string (s : string) : option (string * string) :=
  match skipws s with
  | EmptyString => None
  | s1 => Some (token s1)
  end.

(** An optional sign. *)
Definition get_sign (s : string) : bool * string :=
  match s with
  | String "-" r => (true, r)
  | String "+" r => (false, r)
  | _ => (false, s)
  end.

(** A run of decimal digits: its value on top of [acc], how many digits
    were read on top of [n], and the rest. *)
Fixpoint get_digits (acc : Z) (n : nat) (s : string) : Z * nat * string :=
  match s with
  | String c s' =>
      match digit_of c with
      | Some d => get_digits (10 * acc + d) (S n) s'
      | None => (acc, n, s)
      end
  | EmptyString => (acc, n, s)
  end.

Definition INT_MIN : Z := - 2 ^ 31.
Definition INT_MAX : Z := 2 ^ 31 - 1.

(** [is >> i] for an [int]: sign, digits; no digit or a value outside the
    [int] range sets [failbit]. *)
Definition get_int (s : string) : option (Z * string) :=
  let '(neg, s1) := get_sign (skipws s) in
  let '(v, n, rest) := get_digits 0 0 s1 in
  let z := if neg then - v else v in
  match n with
  | O => None
  | S _ => if (INT_MIN <=? z) && (z <=? INT_MAX) then Some (z, rest) else None
  end.

(** [is >> x] for a [double]: sign, digits with at most one decimal
    point, and an exponent once a mantissa digit was seen; the
    characters gathered must form a complete number.  The value is the
    decimal number itself. *)
Definition get_double (s : string) : option (R * string) :=
  let '(neg, s1) := get_sign (skipws s) in
  let '(ip, ni, s2) := get_digits 0 0 s1 in
  let '(m, nf, s3) :=
    match s2 with
    | String "." r => get_digits ip 0 r
    | _ => (ip, O, s2)
    end in
  let mant := if neg then - m else m in
  match (ni + nf)%nat with
  | O => None
  | S _ =>
      match s3 with
      | String c r =>
          if (Ascii.eqb c "e" || Ascii.eqb c "E")%bool then
            let '(eneg, r1) := get_sign r in
            let '(ev, ne, r2) := get_digits 0 0 r1 in
            let ex := if eneg then - ev else ev in
            match ne with
            | O => None
            | S _ => Some ((IZR mant * powerRZ 10 (ex - Z.of_nat nf))%R, r2)
            end
          else Some ((IZR mant * powerRZ 10 (- Z.of_nat nf))%R, s3)
      | EmptyString => Some ((IZR mant * powerRZ 10 (- Z.of_nat nf))%R, s3)
      end
  end.

End Extract.

Import Extract.

(** The fields of a [P] line, in the order they are extracted. *)
Record PLine : Type := mkPLine {
  P_label : string;
  P_parI : Z;
  P_momI : Z;
  P_pdgId : Z;
  P_px : R;
  P_py : R;
  P_pz : R;
  P_en : R;
  P_mass : R;
  P_status : Z
}.

(** [std::istringstream(line) >> label >> iEvt >> nVtx >> nPar]. *)
Definition scan_E (line : string) : option (string * Z * Z * Z) :=
  '(label, s) ← get_string line;
  '(iEvt, s) ← get_int s;
  '(nVtx, s) ← get_int s;
  '(nPar, _) ← get_int s;
  Some (label, iEvt, nVtx, nPar).

(** [std::istringstream(line) >> label]. *)
Definition scan_U (line : string) : option string :=
  '(label, _) ← get_string line;
  Some label.

(** [std::istringstream(line) >> label >> parI >> momI >> pdgId >> px >> py
    >> pz >> en >> mass >> status]. *)
Definition scan_P (line : string) : option PLine :=
  '(label, s) ← get_string line;
  '(parI, s) ← get_int s;
  '(momI, s) ← get_int s;
  '(pdg, s) ← get_int s;
  '(px, s) ← get_double s;
  '(py, s) ← get_double s;
  '(pz, s) ← get_double s;
  '(en, s) ← get_double s;
  '(mass, s) ← get_double s;
  '(st, _) ← get_int s;
  Some (mkPLine label parI momI pdg px py pz en mass st).

(* ===================================================================== *)
(** * The converter *)
(* ===================================================================== *)

(** How a run ends: the event loop is left normally after [nEvt] events, a
    [std::logic_error] is thrown with a message, or [std::vector] refuses
    a size.  [OutOfFuel] belongs to the embedding only and never occurs (see
    [run_events_terminates]). *)
Inductive Outcome : Type :=
| Finished (nEvt : nat)
| LogicError (msg : string)
| LengthError
| OutOfFuel.

Definition event_error (line : string) : Outcome :=
  LogicError ("[convert_UGHEPMC2LHE] Failed to parse event line: " ++ line)%string.

Definition track_error (line : string) : Outcome :=
  LogicError ("[convert_UGHEPMC2LHE] Failed to parse track line: " ++ line)%string.

(** The value of an [int] converted to [size_t]. *)
Definition to_size_t (z : Z) : Z := z mod 2 ^ 64.

(** The tests of line 69 that follow the extraction: [label != "P" ||
    parI != iPar+1 || momI >= parI].  [parI != iPar+1] compares an [int]
    with a [size_t], so [parI] is converted first. *)
Definition bad_track (iPar : nat) (q : PLine) : bool :=
  negb (P_label q =? "P")%string
  || negb (to_size_t (P_parI q) =? Z.of_nat iPar + 1)
  || (P_parI q <=? P_momI q).

(** Lines 72-74: store the record at [iPar] with status 1, then mark the
    mother, if there is one, with status 2. *)
Definition store_particle (iPar : nat) (q : PLine) (parV : list Particle)
  : list Particle :=
  let parV1 :=
    <[iPar := mkParticle (P_pdgId q) 1 (P_momI q)
                (mkE (P_px q) (P_py q) (P_pz q) (P_en q))]> parV in
  if 0 <? P_momI q
  then alter (set_status 2) (Z.to_nat (P_momI q - 1)) parV1
  else parV1.

(** One iteration of the particle loop on a line that was read: [None]
    when line 69 throws. *)
Definition read_particle (iPar : nat) (line : string) (parV : list Particle)
  : option (list Particle) :=
  match scan_P line with
  | Some q => if bad_track iPar q then None else Some (store_particle iPar q parV)
  | None => None
  end.

(** Lines 65-75: [n] iterations are left, the next one has index [iPar].
    The result is the vector with the lines left unread, or the content
    of [line] when line 69 throws (at the end of a file whose last line
    ends with a newline, the failed [getline] leaves it empty). *)
Fixpoint read_particles (n iPar : nat) (lines : list string)
    (parV : list Particle) : (list Particle * list string) + string :=
  match n with
  | O => inl (parV, lines)
  | S n' =>
      match lines with
      | [] => inr EmptyString
      | line :: rest =>
          match read_particle iPar line parV with
          | Some parV' => read_particles n' (S iPar) rest parV'
          | None => inr line
          end
      end
  end.

(** Lines 47-98.  [out] is what the output file holds, [nEvt] the event
    counter.  One unit of [fuel] is spent per turn of the [while] loop.
    A negative [nPar] converts to a size above [max_size()], which
    [std::vector] refuses before the particle loop starts; otherwise the
    loop makes [nPar] turns. *)
Fixpoint events_loop (fuel : nat) (lines : list string) (out : list OutLine)
    (nEvt : nat) : list OutLine * Outcome :=
  match fuel with
  | O => (out, OutOfFuel)
  | S fuel' =>
      match lines with
      | [] => (out, Finished nEvt)
      | line :: rest =>
          if contains "END_EVENT_LISTING" line then (out, Finished nEvt)
          else if negb (starts_with "E " line)
          then events_loop fuel' rest out nEvt
          else
            match scan_E line with
            | None => (out, event_error line)
            | Some (label, iEvt, nVtx, nPar) =>
                if negb (label =? "E")%string then (out, event_error line)
                else
                  match rest with
                  | [] => (out, event_error EmptyString)
                  | uline :: rest1 =>
                      match scan_U uline with
                      | None => (out, event_error uline)
                      | Some ulabel =>
                          if negb (ulabel =? "U")%string
                          then (out, event_error uline)
                          else if nPar <? 0 then (out, LengthError)
                          else
                            let n := Z.to_nat nPar in
                            match read_particles n 0 rest1
                                    (replicate n Particle0) with
                            | inr bad => (out, track_error bad)
                            | inl (parV, rest2) =>
                                events_loop fuel' rest2
                                  (out ++ write_event (add_fake_photons parV))
                                  (S nEvt)
                            end
                      end
                  end
            end
      end
  end.

Definition dquote : string := String (ascii_of_nat 34) EmptyString.

(** Lines 29-41. *)
Definition write_header (beamE1 beamE2 fidxsec totxsec : R) : list OutLine :=
  [ Text ("<LesHouchesEvents version=" ++ dquote ++ "3.0" ++ dquote ++ ">")%string;
    Text "<!-- ";
    Text " #Converted from UPCGEN generator HEPMC output ";
    Text "-->";
    Text "<header>";
    Text "</header>";
    Text "<init>";
    InitBeams beamE1 beamE2;
    InitXsec fidxsec totxsec;
    Text "</init>" ].

(** The event loop on the whole input; the fuel covers every line. *)
Definition run_events (lines : list string) (out : list OutLine) (nEvt : nat)
  : list OutLine * Outcome :=
  events_loop (S (length lines)) lines out nEvt.

(** [convert_UGHEPMC2LHE], from the opened input on.  [xsec] is the pair
    read from xsec.out when that file opens; [fidxsec(1), totxsec(3)]
    otherwise. *)
Definition convert_UGHEPMC2LHE (lines : list string) (beamE1 beamE2 : R)
    (xsec : option (R * R)) : list OutLine * Outcome :=
  let '(fidxsec, totxsec) := default (1%R, 3%R) xsec in
  let '(out, r) :=
    run_events lines (write_header beamE1 beamE2 fidxsec totxsec) 0 in
  match r with
  | Finished _ => (out ++ [Text "</LesHouchesEvents>"], r)
  | _ => (out, r)
  end.

(* ===================================================================== *)
(** * Reference quantities of the properties *)
(* ===================================================================== *)

(** The component-wise total of the records whose status is 1. *)
Definition total_of (f : PxPyPzEVector -> R) (parV : list Particle) : R :=
  fold_right
    (fun pV acc => if status pV =? 1 then (f (p pV) + acc)%R else acc)
    0%R parV.

Definition total_final (parV : list Particle) : PxPyPzEVector :=
  mkE (total_of Px parV) (total_of Py parV)
      (total_of Pz parV) (total_of E parV).

(** Every record of status 1 has a non-negative energy. *)
Definition final_energies_nonneg (parV : list Particle) : Prop :=
  Forall (fun pV => status pV = 1 -> (0 <= E (p pV))%R) parV.

(** One step of the accumulation of [sum_final]. *)
Definition acc_final (p4 : PxPyPzMVector) (pV : Particle) : PxPyPzMVector :=
  if status pV =? 1 then add_assign p4 (p pV) else p4.

(** The component-wise sum of a list of 4-vectors. *)
Definition vsum (vs : list PxPyPzEVector) : PxPyPzEVector :=
  fold_right
    (fun v acc =>
       mkE (Px v + Px acc) (Py v + Py acc) (Pz v + Pz acc) (E v + E acc))
    (mkE 0 0 0 0) vs.

(** The particle lines of an event block. *)
Definition emitted (parV : list Particle) : list OutLine :=
  map write_particle (add_fake_photons parV).

(** The particle loop on lines that are already tokenized: the records
    are stored one after the other from index [iPar] on. *)
Fixpoint build (iPar : nat) (qs : list PLine) (parV : list Particle)
  : list Particle :=
  match qs with
  | [] => parV
  | q :: qs' => build (S iPar) qs' (store_particle iPar q parV)
  end.

(** [qs] are the fields of the lines [ls], none of which makes line 69
    throw when they are read from index [iPar] on. *)
Fixpoint tracks_ok (iPar : nat) (ls : list string) (qs : list PLine) : Prop :=
  match ls, qs with
  | [], [] => True
  | l :: ls', q :: qs' =>
      scan_P l = Some q /\ bad_track iPar q = false /\ tracks_ok (S iPar) ls' qs'
  | _, _ => False
  end.

(** Some line of [qs] names the record at index [i] as its mother. *)
Definition has_child (i : nat) (qs : list PLine) : bool :=
  existsb (fun q => P_momI q =? Z.of_nat i + 1) qs.

(** Among the first [n] lines of [lines], a line after the one of index
    [i] declares position [i + 1] as its parent. *)
Definition declared_parent (lines : list string) (n i : nat) : Prop :=
  exists j l q,
    (i < j < n)%nat /\ lines !! j = Some l /\ scan_P l = Some q
    /\ P_momI q = Z.of_nat i + 1.

(** The status and the parent columns of an output line. *)
Definition out_status (o : OutLine) : option Z :=
  match o with
  | ParticleLine _ st _ _ _ _ _ _ => Some st
  | _ => None
  end.

Definition out_momS (o : OutLine) : option string :=
  match o with
  | ParticleLine _ _ ms _ _ _ _ _ => Some ms
  | _ => None
  end.

(** ** Well-formed listings *)

(** A line the event loop passes over: no end marker in it, and it does
    not begin with "E ". *)
Definition skipped (line : string) : Prop :=
  contains "END_EVENT_LISTING" line = false /\ starts_with "E " line = false.

(** An event line that declares [k] particles. *)
Definition header_of (k : nat) (eline : string) : Prop :=
  contains "END_EVENT_LISTING" eline = false
  /\ starts_with "E " eline = true
  /\ exists iEvt nVtx, scan_E eline = Some ("E", iEvt, nVtx, Z.of_nat k).

Definition units_line (uline : string) : Prop := scan_U uline = Some "U".

(** A particle line for the index [i] of the particle loop: label P,
    position [i + 1], parent index below the position. *)
Definition track_of (i : nat) (l : string) : Prop :=
  exists q, scan_P l = Some q /\ P_label q = "P"
            /\ P_parI q = Z.of_nat i + 1 /\ P_momI q < P_parI q.

(** The text of one event: lines passed over, the E line, the U line and
    the P lines. *)
Record EventText : Type := mkEventText {
  ev_skip : list string;
  ev_E : string;
  ev_U : string;
  ev_P : list string
}.

Definition event_lines (ev : EventText) : list string :=
  ev_skip ev ++ ev_E ev :: ev_U ev :: ev_P ev.

Definition wf_event (k : nat) (ev : EventText) : Prop :=
  Forall skipped (ev_skip ev)
  /\ header_of k (ev_E ev)
  /\ units_line (ev_U ev)
  /\ length (ev_P ev) = k
  /\ forall i l, ev_P ev !! i = Some l -> track_of i l.

(** What may follow the last event: lines passed over, then nothing or a
    line with the end marker and anything after it. *)
Definition wf_tail (tail : list string) : Prop :=
  exists pre post,
    tail = pre ++ post /\ Forall skipped pre
    /\ match post with
       | [] => True
       | m :: _ => contains "END_EVENT_LISTING" m = true
       end.

Definition is_particle_line (o : OutLine) : bool :=
  match o with
  | ParticleLine _ _ _ _ _ _ _ _ => true
  | _ => false
  end.

(** An event block for a declared count [k]: the opening tag, the count
    line with [k + 2], [k + 2] particle lines, the closing tag. *)
Definition event_block (k : nat) (b : list OutLine) : Prop :=
  exists ps,
    b = Text "<event>" :: EventCount (k + 2) :: ps ++ [Text "</event>"]
    /\ length ps = (k + 2)%nat
    /\ forallb is_particle_line ps = true.

(* ===================================================================== *)
(** * Example inputs *)
(* ===================================================================== *)

(** A single electron with transverse momentum: (px, py, pz, e) =
    (1, 0, 3, 5). *)
Definition ev_transverse : list Particle :=
  [mkParticle 11 1 0 (mkE 1 0 3 5)].

(** A single record with more momentum than energy along z:
    (0, 0, 10, 1). *)
Definition ev_spacelike : list Particle :=
  [mkParticle 11 1 0 (mkE 0 0 10 1)].

(** The particle lines of an event of two records, the second a daughter
    of the first. *)
Definition ex_tracks : list string :=
  ["P 1 0 23 0 0 3 5 4 2"; "P 2 1 11 0 0 3 5 0.000511 1"].


(** An event of one electron, as it stands in a listing. *)
Definition ex_event : EventText :=
  mkEventText ["HepMC::Version 2.06.09"] "E 1 0 1" "U GEV MM"
    ["P 1 0 11 0 0 10 10.511 0.000511 1"].

(** A particle line that repeats position 1. *)
Definition ex_bad_track : string := "P 1 0 22 0 0 1 1 0 1".

(** A particle line beyond the declared count of [ex_event]. *)
Definition ex_surplus : string := "P 2 0 22 0 0 1 1 0 1".

(* ===================================================================== *)
(** * File names, side file and entry point *)
(* ===================================================================== *)

(** [std::string::npos], the largest [size_t]. *)
Definition npos : Z := 2 ^ 64 - 1.

(** [a + b] on [size_t]. *)
Definition size_t_add (a b : Z) : Z := (a + b) mod 2 ^ 64.

(** The scan behind [rfind]: [i] is the position of [s] in the whole
    string, [last] the position of the last occurrence seen so far. *)
Fixpoint rfind_from (pat s : string) (i last : Z) : Z :=
  match s with
  | EmptyString => if String.prefix pat s then i else last
  | String _ s' =>
      rfind_from pat s' (i + 1) (if String.prefix pat s then i else last)
  end.

(** [s.rfind(pat)]: the position of the last occurrence of [pat] in [s],
    [npos] when there is none. *)
Definition rfind (pat s : string) : Z := rfind_from pat s 0 npos.

(** [s.substr(pos, len)]: the characters from [pos] on, at most [len] of
    them; [None] stands for the [std::out_of_range] thrown when
    [pos > s.size()]. *)
Definition substr (s : string) (pos len : Z) : option string :=
  let size := Z.of_nat (String.length s) in
  if size <? pos then None
  else Some (substring (Z.to_nat pos) (Z.to_nat (Z.min len (size - pos))) s).

(** Line 16: [inFileName.substr(0, inFileName.rfind("/")+1)+"xsec.out"]. *)
Definition xsec_path (inFileName : string) : option string :=
  d ← substr inFileName 0 (size_t_add (rfind "/" inFileName) 1);
  Some (d ++ "xsec.out")%string.

(** Line 21: [inFileName.substr(0, inFileName.rfind("."))
    .substr(inFileName.rfind("/")+1) + ".lhe"]. *)
Definition out_name (inFileName : string) : option string :=
  s1 ← substr inFileName 0 (rfind "." inFileName);
  s2 ← substr s1 (size_t_add (rfind "/" inFileName) 1) npos;
  Some (s2 ++ ".lhe")%string.

(** [is >> v] for a [double] variable holding [v], on a stream that is
    either failed ([None]) or has the text [s] left.  A failed stream and
    a stream with nothing but white space left keep [v]; characters that
    do not form a number store 0. *)
Definition extract_double (v : R) (st : option string) : R * option string :=
  match st with
  | None => (v, None)
  | Some s =>
      match skipws s with
      | EmptyString => (v, None)
      | _ =>
          match get_double s with
          | Some (x, r) => (x, Some r)
          | None => (0%R, None)
          end
      end
  end.

(** Lines 15-18: [fidxsec(1), totxsec(3)], then
    [xsecFile >> fidxsec >> totxsec] when the file opened; [file] is the
    text of xsec.out, [None] when it does not open. *)
Definition read_xsec (file : option string) : R * R :=
  let '(fidxsec, st) := extract_double 1 file in
  let '(totxsec, _) := extract_double 3 st in
  (fidxsec, totxsec).

(** What the converter sees of the file system: the lines of a file
    opened for reading, the text of a file opened for reading, and
    whether a file can be opened for writing. *)
Record Files : Type := mkFiles {
  read_lines : string -> option (list string);
  read_text : string -> option string;
  can_create : string -> bool
}.

(** A call of [convert_UGHEPMC2LHE]: an exception thrown before the
    output file exists, or the output file with its name, its lines and
    the way the run ended. *)
Inductive FileRun : Type :=
| Thrown (e : Outcome)
| OutOfRange
| Written (outFileName : string) (content : list OutLine) (r : Outcome).

(** [convert_UGHEPMC2LHE(inFileName, beamE1, beamE2)], lines 7-104. *)
Definition convert_file (fs : Files) (inFileName : string)
    (beamE1 beamE2 : R) : FileRun :=
  match read_lines fs inFileName with
  | None =>
      Thrown (LogicError
                ("[convert_UGHEPMC2LHE] Failed to open input file: "
                   ++ inFileName)%string)
  | Some lines =>
      match xsec_path inFileName with
      | None => OutOfRange
      | Some xsecName =>
          let xsec := read_xsec (read_text fs xsecName) in
          match out_name inFileName with
          | None => OutOfRange
          | Some outFileName =>
              if can_create fs outFileName then
                let '(out, r) :=
                  convert_UGHEPMC2LHE lines beamE1 beamE2 (Some xsec) in
                Written outFileName out r
              else
                Thrown (LogicError
                          ("[convert_UGHEPMC2LHE] Failed to open output file: "
                             ++ outFileName)%string)
          end
      end
  end.

(** [main]: the usage message with status 1, or the conversion. *)
Inductive MainResult : Type :=
| Usage
| Ran (run : FileRun).

(** Lines 107-116.  [argv] holds the program name and the arguments;
    [atof] is the C library function. *)
Definition main (atof : string -> R) (fs : Files) (argv : list string)
  : MainResult :=
  match argv with
  | [_; inFileName; e1; e2] =>
      Ran (convert_file fs inFileName (atof e1) (atof e2))
  | _ => Usage
  end.

(** The status [main] returns: 1 after the usage message, 0 after a
    conversion that ran to its end; an exception leaves [main] without a
    returned status. *)
Definition exit_status (m : MainResult) : option Z :=
  match m with
  | Usage => Some 1
  | Ran (Written _ _ (Finished _)) => Some 0
  | Ran _ => None
  end.

(** A directory prefix: empty, or ending with a slash. *)
Definition dir_prefix (pre : string) : Prop :=
  pre = EmptyString \/ exists d, pre = (d ++ "/")%string.

(* ===================================================================== *)
(** * Lorentz-vector arithmetic *)
(* ===================================================================== *)

Section VectorFacts.

Local Open Scope R_scope.

Lemma sqrt_square_abs (x : R) : sqrt (x * x) = Rabs x.
Proof. exact (sqrt_Rsqr_abs x). Qed.

Lemma Rabs_le_between (a b : R) : Rabs a <= b -> - b <= a <= b.
Proof. unfold Rabs. destruct (Rcase_abs a); lra. Qed.

(** The mass kept by [SetPxPyPzE] has the signed square
    [e*e - px*px - py*py - pz*pz]. *)
Lemma mM2_SetPxPyPzE (px py pz e : R) :
  mM2 (SetPxPyPzE px py pz e) = e * e - px * px - py * py - pz * pz.
Proof.
  unfold mM2, SetPxPyPzE, M, M2; simpl.
  set (mm := e * e - px * px - py * py - pz * pz).
  destruct (Rle_dec 0 mm) as [Hmm | Hmm].
  - destruct (Rle_dec 0 (sqrt mm)) as [_ | Hs].
    + now apply sqrt_sqrt.
    + exfalso; apply Hs, sqrt_pos.
  - assert (Hpos : 0 < sqrt (- mm)) by (apply sqrt_lt_R0; lra).
    destruct (Rle_dec 0 (- sqrt (- mm))) as [Hs | _]; [lra |].
    replace (- sqrt (- mm) * - sqrt (- mm))
      with (sqrt (- mm) * sqrt (- mm)) by ring.
    rewrite sqrt_sqrt by lra. ring.
Qed.

(** Reading the energy back after [SetPxPyPzE] loses its sign. *)
Lemma mE_SetPxPyPzE (px py pz e : R) :
  mE (SetPxPyPzE px py pz e) = Rabs e.
Proof.
  unfold mE, mE2. rewrite mM2_SetPxPyPzE.
  unfold mP2, SetPxPyPzE; simpl.
  replace (px * px + py * py + pz * pz
           + (e * e - px * px - py * py - pz * pz)) with (e * e) by ring.
  destruct (Rlt_dec 0 (e * e)) as [Hp | Hp].
  - apply sqrt_square_abs.
  - assert (He : e = 0) by nra. subst e.
    rewrite sqrt_0, Rabs_R0. reflexivity.
Qed.

Lemma mE_add_assign (p4 : PxPyPzMVector) (q : PxPyPzEVector) :
  mE (add_assign p4 q) = Rabs (mE p4 + E q).
Proof. unfold add_assign. apply mE_SetPxPyPzE. Qed.

Lemma mZ_add_assign (p4 : PxPyPzMVector) (q : PxPyPzEVector) :
  mZ (add_assign p4 q) = mZ p4 + Pz q.
Proof. reflexivity. Qed.

Lemma mE_nonneg (v : PxPyPzMVector) : 0 <= mE v.
Proof. apply sqrt_pos. Qed.

(** A vector built with mass 0 along z has energy [|pz|]... *)
Lemma mE_massless (pz : R) : mE (mkM 0 0 pz 0) = Rabs pz.
Proof.
  unfold mE, mE2, mP2, mM2; simpl.
  destruct (Rle_dec 0 0) as [_ | H]; [| lra].
  replace (0 * 0 + 0 * 0 + pz * pz + 0 * 0) with (pz * pz) by ring.
  destruct (Rlt_dec 0 (pz * pz)) as [Hp | Hp].
  - apply sqrt_square_abs.
  - assert (He : pz = 0) by nra. subst pz.
    rewrite sqrt_0, Rabs_R0. reflexivity.
Qed.

(** ... and, converted to (x, y, z, t), mass 0. *)
Lemma M_massless (pz : R) : M (to_PxPyPzE (mkM 0 0 pz 0)) = 0.
Proof.
  unfold M, M2, to_PxPyPzE. cbn [fX fY fZ fT mX mY mZ].
  rewrite mE_massless.
  replace (Rabs pz * Rabs pz - 0 * 0 - 0 * 0 - pz * pz) with 0.
  - destruct (Rle_dec 0 0) as [_ | H]; [apply sqrt_0 | lra].
  - unfold Rabs; destruct (Rcase_abs pz); ring.
Qed.

End VectorFacts.

Section SumFacts.

Local Open Scope R_scope.

Lemma sum_final_fold (parV : list Particle) :
  sum_final parV = fold_left acc_final parV (mkM 0 0 0 0).
Proof. reflexivity. Qed.

Lemma fold_acc_mX (parV : list Particle) (p4 : PxPyPzMVector) :
  mX (fold_left acc_final parV p4) = mX p4 + total_of Px parV.
Proof.
  revert p4; induction parV as [| pV parV IH]; intros p4; simpl.
  - lra.
  - rewrite IH. unfold acc_final.
    destruct (status pV =? 1)%Z; simpl; unfold Px; lra.
Qed.

Lemma fold_acc_mY (parV : list Particle) (p4 : PxPyPzMVector) :
  mY (fold_left acc_final parV p4) = mY p4 + total_of Py parV.
Proof.
  revert p4; induction parV as [| pV parV IH]; intros p4; simpl.
  - lra.
  - rewrite IH. unfold acc_final.
    destruct (status pV =? 1)%Z; simpl; unfold Py; lra.
Qed.

Lemma fold_acc_mZ (parV : list Particle) (p4 : PxPyPzMVector) :
  mZ (fold_left acc_final parV p4) = mZ p4 + total_of Pz parV.
Proof.
  revert p4; induction parV as [| pV parV IH]; intros p4; simpl.
  - lra.
  - rewrite IH. unfold acc_final.
    destruct (status pV =? 1)%Z; simpl; unfold Pz; lra.
Qed.

Lemma fold_acc_mE (parV : list Particle) (p4 : PxPyPzMVector) :
  final_energies_nonneg parV ->
  mE (fold_left acc_final parV p4) = mE p4 + total_of E parV.
Proof.
  revert p4; induction parV as [| pV parV IH]; intros p4 Hpos; simpl.
  - lra.
  - inversion Hpos as [| ? ? Hhd Htl]; subst.
    rewrite IH by assumption. unfold acc_final.
    destruct (Z.eqb_spec (status pV) 1) as [H1 | H1]; [| lra].
    rewrite mE_add_assign.
    pose proof (mE_nonneg p4). specialize (Hhd H1).
    rewrite Rabs_right by lra. lra.
Qed.

Lemma mE_origin : mE (mkM 0 0 0 0) = 0.
Proof. rewrite mE_massless. apply Rabs_R0. Qed.

Lemma sum_final_Z (parV : list Particle) :
  mZ (sum_final parV) = Pz (total_final parV).
Proof. rewrite sum_final_fold, fold_acc_mZ. simpl. lra. Qed.

Lemma sum_final_X (parV : list Particle) :
  mX (sum_final parV) = Px (total_final parV).
Proof. rewrite sum_final_fold, fold_acc_mX. simpl. lra. Qed.

Lemma sum_final_Y (parV : list Particle) :
  mY (sum_final parV) = Py (total_final parV).
Proof. rewrite sum_final_fold, fold_acc_mY. simpl. lra. Qed.

Lemma sum_final_E (parV : list Particle) :
  final_energies_nonneg parV ->
  mE (sum_final parV) = E (total_final parV).
Proof.
  intros H. rewrite sum_final_fold, fold_acc_mE by assumption.
  rewrite mE_origin. simpl. lra.
Qed.

End SumFacts.

(* ===================================================================== *)
(** * The synthesized photons *)
(* ===================================================================== *)

Lemma add_fake_photons_cons (parV : list Particle) :
  add_fake_photons parV =
    fake_photon ((mZ (sum_final parV) - mE (sum_final parV)) / 2)
    :: fake_photon ((mZ (sum_final parV) + mE (sum_final parV)) / 2)
    :: parV.
Proof. reflexivity. Qed.

Lemma fake_photon_fields (pz : R) :
  fake_photon pz = mkParticle 22 (-1) 0 (mkE 0 0 pz (Rabs pz)).
Proof.
  unfold fake_photon, to_PxPyPzE. rewrite mE_massless. reflexivity.
Qed.

Lemma write_fake_photon (pz : R) :
  write_particle (fake_photon pz) =
    ParticleLine 22 (-1) "0 0" 0 0 pz (Rabs pz) 0.
Proof.
  unfold write_particle, fake_photon. cbn [p pdgId status momI].
  rewrite M_massless. unfold to_PxPyPzE, E. cbn [fT mX mY mZ].
  rewrite mE_massless. reflexivity.
Qed.

Lemma ev_transverse_nonneg : final_energies_nonneg ev_transverse.
Proof. repeat constructor. simpl. lra. Qed.

Lemma ev_spacelike_nonneg : final_energies_nonneg ev_spacelike.
Proof. repeat constructor. simpl. lra. Qed.

(** C1, counterexample: for the event [ev_transverse] the two photon
    momenta do not sum to the total of the FINAL records, which has
    px = 1 while both photons have px = 0. *)
Lemma photon_sum_differs_from_total :
  vsum (map p (take 2 (add_fake_photons ev_transverse)))
    <> total_final ev_transverse.
Proof.
  rewrite add_fake_photons_cons, !fake_photon_fields.
  intros H. apply (f_equal Px) in H. simpl in H. lra.
Qed.

(** C1, amended: the photons carry no transverse momentum; along z their
    momenta sum to the total of the FINAL records; and their energies sum
    to the total energy when the FINAL records have non-negative energies
    and the total T has |T.pz| <= T.energy. *)
Theorem photon_sum_conserves_pz_and_energy (parV : list Particle) :
  let S := vsum (map p (take 2 (add_fake_photons parV))) in
  let T := total_final parV in
  Px S = 0%R /\ Py S = 0%R /\ Pz S = Pz T /\
  (final_energies_nonneg parV -> (Rabs (Pz T) <= E T)%R -> E S = E T).
Proof.
  intros S T. subst S.
  rewrite add_fake_photons_cons, !fake_photon_fields, sum_final_Z.
  pose proof (sum_final_E parV) as HE. fold T in HE |- *.
  revert HE. generalize (mE (sum_final parV)). clearbody T.
  destruct T as [tx ty tz tt]. simpl. intros e HE.
  split; [lra |]. split; [lra |]. split; [lra |].
  intros Hpos Hlike. rewrite (HE Hpos).
  apply Rabs_le_between in Hlike.
  rewrite (Rabs_left1 ((tz - tt) / 2)) by lra.
  rewrite (Rabs_right ((tz + tt) / 2)) by lra.
  lra.
Qed.

Lemma photon_sum_conserves_pz_and_energy_witness :
  E (vsum (map p (take 2 (add_fake_photons ev_transverse))))
    = E (total_final ev_transverse).
Proof.
  apply (photon_sum_conserves_pz_and_energy ev_transverse).
  - exact ev_transverse_nonneg.
  - simpl. rewrite Rabs_right; lra.
Defined.

(** C2, counterexample: for the event [ev_spacelike], T = (0, 0, 10, 1)
    and the record claimed for photon B, with energy -(T.pz - T.energy)/2
    = -4.5, is not among the records of the event: the photon built from
    (T.pz - T.energy)/2 has energy +4.5. *)
Lemma claimed_photon_B_absent :
  let T := total_final ev_spacelike in
  ~ In (mkParticle 22 (-1) 0
          (mkE 0 0 ((Pz T - E T) / 2) (- ((Pz T - E T) / 2))))
       (add_fake_photons ev_spacelike).
Proof.
  intros T. rewrite add_fake_photons_cons, !fake_photon_fields.
  rewrite sum_final_Z, (sum_final_E _ ev_spacelike_nonneg). fold T.
  assert (HZ : Pz T = 10%R) by (simpl; lra).
  assert (HE : E T = 1%R) by (simpl; lra).
  rewrite HZ, HE.
  intros [H | [H | [H | []]]].
  - apply (f_equal (fun x => E (p x))) in H. simpl in H.
    rewrite Rabs_right in H; lra.
  - apply (f_equal (fun x => Pz (p x))) in H. simpl in H. lra.
  - discriminate H.
Qed.

(** C2, amended: when the FINAL records have non-negative energies and
    their total T has |T.pz| <= T.energy, the two synthesized records are
    {22, INCOMING, 0, (0, 0, (T.pz+T.energy)/2, (T.pz+T.energy)/2)} and
    {22, INCOMING, 0, (0, 0, (T.pz-T.energy)/2, -(T.pz-T.energy)/2)}. *)
Theorem fake_photon_records (parV : list Particle) :
  let T := total_final parV in
  final_energies_nonneg parV ->
  (Rabs (Pz T) <= E T)%R ->
  fake_photon ((mZ (sum_final parV) + mE (sum_final parV)) / 2)
    = mkParticle 22 (-1) 0
        (mkE 0 0 ((Pz T + E T) / 2) ((Pz T + E T) / 2))
  /\ fake_photon ((mZ (sum_final parV) - mE (sum_final parV)) / 2)
    = mkParticle 22 (-1) 0
        (mkE 0 0 ((Pz T - E T) / 2) (- ((Pz T - E T) / 2)))
  /\ forall pV, In pV (add_fake_photons parV) <->
       pV = fake_photon ((mZ (sum_final parV) + mE (sum_final parV)) / 2)
       \/ pV = fake_photon ((mZ (sum_final parV) - mE (sum_final parV)) / 2)
       \/ In pV parV.
Proof.
  intros T Hpos Hlike.
  split; [| split].
  3: { intros pV. rewrite add_fake_photons_cons. simpl.
       split; intros [H | [H | H]]; subst; auto. }
  all: rewrite fake_photon_fields, sum_final_Z, (sum_final_E _ Hpos); fold T.
  all: apply Rabs_le_between in Hlike.
  - rewrite (Rabs_right ((Pz T + E T) / 2)) by lra. reflexivity.
  - rewrite (Rabs_left1 ((Pz T - E T) / 2)) by lra. reflexivity.
Qed.

Lemma fake_photon_records_witness :
  fake_photon ((mZ (sum_final ev_transverse)
                + mE (sum_final ev_transverse)) / 2)
    = mkParticle 22 (-1) 0
        (mkE 0 0 ((Pz (total_final ev_transverse)
                   + E (total_final ev_transverse)) / 2)
                 ((Pz (total_final ev_transverse)
                   + E (total_final ev_transverse)) / 2)).
Proof.
  apply (fake_photon_records ev_transverse).
  - exact ev_transverse_nonneg.
  - simpl. rewrite Rabs_right; lra.
Defined.

(* ===================================================================== *)
(** * Extraction: ranges of the integers read *)
(* ===================================================================== *)

Ltac bind_cases :=
  repeat match goal with
    | |- context [mbind _ ?x] =>
        let H := fresh "Hx" in
        destruct x as [[? ?] |] eqn:H; simpl; [| discriminate]
    end.

Lemma get_int_range (s r : string) (z : Z) :
  get_int s = Some (z, r) -> INT_MIN <= z <= INT_MAX.
Proof.
  unfold get_int.
  destruct (get_sign (skipws s)) as [neg s1].
  destruct (get_digits 0 0 s1) as [[v n] rest].
  destruct n as [| n]; [discriminate |].
  destruct ((INT_MIN <=? _) && (_ <=? INT_MAX)) eqn:Hr; [| discriminate].
  intros [= <- _]. apply andb_true_iff in Hr. lia.
Qed.

Lemma scan_P_range (line : string) (q : PLine) :
  scan_P line = Some q ->
  INT_MIN <= P_parI q <= INT_MAX /\ INT_MIN <= P_momI q <= INT_MAX.
Proof.
  unfold scan_P. bind_cases. intros [= <-]. simpl.
  eauto using get_int_range.
Qed.

Lemma scan_E_range (line label : string) (iEvt nVtx nPar : Z) :
  scan_E line = Some (label, iEvt, nVtx, nPar) -> nPar <= INT_MAX.
Proof.
  unfold scan_E. bind_cases. intros [= <- <- <- <-].
  match goal with H : get_int _ = Some (?n, _) |- ?n <= _ =>
    apply get_int_range in H; lia end.
Qed.

(** The [int]/[size_t] comparison of line 69 is exact on the values that
    occur. *)
Lemma to_size_t_eq (z : Z) (iPar : nat) :
  INT_MIN <= z <= INT_MAX -> Z.of_nat iPar < INT_MAX ->
  (to_size_t z =? Z.of_nat iPar + 1) = (z =? Z.of_nat iPar + 1).
Proof.
  unfold to_size_t, INT_MIN, INT_MAX. intros Hz Hi.
  destruct (Z.eqb_spec z (Z.of_nat iPar + 1)) as [He | He].
  - apply Z.eqb_eq. rewrite Z.mod_small; lia.
  - apply Z.eqb_neq. destruct (Z_lt_le_dec z 0) as [Hneg | Hpos].
    + replace z with (z + 2 ^ 64 + (-1) * 2 ^ 64) by lia.
      rewrite Z_mod_plus_full, Z.mod_small; lia.
    + rewrite Z.mod_small; lia.
Qed.

Lemma bad_track_false (iPar : nat) (q : PLine) :
  INT_MIN <= P_parI q <= INT_MAX -> Z.of_nat iPar < INT_MAX ->
  bad_track iPar q = false <->
  P_label q = "P" /\ P_parI q = Z.of_nat iPar + 1 /\ P_momI q < P_parI q.
Proof.
  intros Hz Hi. unfold bad_track. rewrite to_size_t_eq by assumption.
  rewrite !orb_false_iff, !negb_false_iff, String.eqb_eq, Z.eqb_eq, Z.leb_gt.
  tauto.
Qed.

(* ===================================================================== *)
(** * The particle vector *)
(* ===================================================================== *)

Lemma store_particle_length (iPar : nat) (q : PLine) (parV : list Particle) :
  length (store_particle iPar q parV) = length parV.
Proof.
  unfold store_particle. destruct (0 <? P_momI q).
  - rewrite length_alter. apply length_insert.
  - apply length_insert.
Qed.

(** What storing the record of index [iPar] does to another record. *)
Lemma store_particle_lookup_ne (iPar i : nat) (q : PLine)
    (parV : list Particle) :
  i <> iPar ->
  store_particle iPar q parV !! i =
    if P_momI q =? Z.of_nat i + 1
    then set_status 2 <$> parV !! i
    else parV !! i.
Proof.
  intros Hne. unfold store_particle.
  destruct (Z.ltb_spec 0 (P_momI q)) as [Hpos | Hneg].
  - destruct (Z.eqb_spec (P_momI q) (Z.of_nat i + 1)) as [He | He].
    + replace (Z.to_nat (P_momI q - 1)) with i by lia.
      rewrite list_lookup_alter_eq, list_lookup_insert_ne by auto.
      reflexivity.
    + rewrite list_lookup_alter_ne by lia.
      apply list_lookup_insert_ne; auto.
  - destruct (Z.eqb_spec (P_momI q) (Z.of_nat i + 1)); [lia |].
    apply list_lookup_insert_ne; auto.
Qed.

(** The record stored at [iPar] has status 1 when its mother index is
    that of an earlier record or not positive. *)
Lemma store_particle_lookup_eq (iPar : nat) (q : PLine)
    (parV : list Particle) :
  (iPar < length parV)%nat -> P_momI q <= Z.of_nat iPar ->
  store_particle iPar q parV !! iPar =
    Some (mkParticle (P_pdgId q) 1 (P_momI q)
            (mkE (P_px q) (P_py q) (P_pz q) (P_en q))).
Proof.
  intros Hlen Hmom. unfold store_particle.
  destruct (Z.ltb_spec 0 (P_momI q)) as [Hpos | Hneg].
  - rewrite list_lookup_alter_ne by lia.
    apply list_lookup_insert_eq; auto.
  - apply list_lookup_insert_eq; auto.
Qed.

Lemma build_length (qs : list PLine) (iPar : nat) (parV : list Particle) :
  length (build iPar qs parV) = length parV.
Proof.
  revert iPar parV; induction qs as [| q qs IH]; intros iPar parV; simpl.
  - reflexivity.
  - rewrite IH. apply store_particle_length.
Qed.

Lemma set_status_twice (s : Z) (o : option Particle) :
  set_status s <$> (set_status s <$> o) = set_status s <$> o.
Proof. destruct o; reflexivity. Qed.

(** A record stored before [iPar] is only touched by the lines that name
    it as mother. *)
Lemma build_lookup_before (qs : list PLine) (iPar i : nat)
    (parV : list Particle) :
  (i < iPar)%nat ->
  build iPar qs parV !! i =
    if has_child i qs then set_status 2 <$> parV !! i else parV !! i.
Proof.
  revert iPar parV; induction qs as [| q qs IH]; intros iPar parV Hlt; simpl.
  - reflexivity.
  - rewrite IH by lia. rewrite store_particle_lookup_ne by lia.
    destruct (P_momI q =? Z.of_nat i + 1), (has_child i qs); simpl;
      auto using set_status_twice.
Qed.

(** The record of the [k]-th line: its fields are those of the line, its
    status tells whether a later line names it as mother. *)
Lemma build_lookup_at (qs : list PLine) (iPar k : nat) (q : PLine)
    (parV : list Particle) :
  qs !! k = Some q ->
  (iPar + k < length parV)%nat ->
  (forall j q', qs !! j = Some q' -> P_momI q' <= Z.of_nat (iPar + j)) ->
  build iPar qs parV !! (iPar + k)%nat =
    Some (mkParticle (P_pdgId q)
            (if has_child (iPar + k) (drop (S k) qs) then 2 else 1)
            (P_momI q)
            (mkE (P_px q) (P_py q) (P_pz q) (P_en q))).
Proof.
  revert iPar k parV; induction qs as [| q0 qs IH];
    intros iPar k parV Hk Hlen Hval; [discriminate |].
  destruct k as [| k]; simpl in Hk.
  - injection Hk as ->. simpl.
    rewrite Nat.add_0_r, build_lookup_before by lia.
    rewrite store_particle_lookup_eq.
    + rewrite drop_0. destruct (has_child iPar qs); reflexivity.
    + lia.
    + specialize (Hval 0%nat q eq_refl). rewrite Nat.add_0_r in Hval. exact Hval.
  - simpl build. replace (iPar + S k)%nat with (S iPar + k)%nat by lia.
    rewrite (IH (S iPar) k _ Hk).
    + reflexivity.
    + rewrite store_particle_length. lia.
    + intros j q' Hj. specialize (Hval (S j) q' Hj).
      replace (S iPar + j)%nat with (iPar + S j)%nat by lia. exact Hval.
Qed.

(** The particle loop succeeds exactly on [n] lines that tokenize and pass
    the tests of line 69, and then stores their records. *)
Lemma read_particles_inl (n iPar : nat) (lines rest : list string)
    (parV parV' : list Particle) :
  read_particles n iPar lines parV = inl (parV', rest) ->
  exists ls qs,
    lines = ls ++ rest /\ length ls = n /\ tracks_ok iPar ls qs
    /\ parV' = build iPar qs parV.
Proof.
  revert iPar lines parV; induction n as [| n IH]; intros iPar lines parV; simpl.
  - intros [= <- <-]. exists [], []. simpl. auto.
  - destruct lines as [| line lines]; [discriminate |].
    unfold read_particle.
    destruct (scan_P line) as [q |] eqn:Hq; [| discriminate].
    destruct (bad_track iPar q) eqn:Hbad; [discriminate |].
    intros H. apply IH in H as (ls & qs & -> & Hlen & Hok & ->).
    exists (line :: ls), (q :: qs). simpl. repeat split; auto; lia.
Qed.

Lemma read_particles_ok (ls : list string) (qs : list PLine) (iPar : nat)
    (rest : list string) (parV : list Particle) :
  tracks_ok iPar ls qs ->
  read_particles (length ls) iPar (ls ++ rest) parV
    = inl (build iPar qs parV, rest).
Proof.
  revert qs iPar parV; induction ls as [| l ls IH];
    intros [| q qs] iPar parV; simpl; try tauto.
  intros (Hq & Hbad & Hok). unfold read_particle. rewrite Hq, Hbad.
  apply IH, Hok.
Qed.

Lemma tracks_ok_length (ls : list string) (qs : list PLine) (iPar : nat) :
  tracks_ok iPar ls qs -> length qs = length ls.
Proof.
  revert qs iPar; induction ls as [| l ls IH]; intros [| q qs] iPar;
    simpl; try tauto.
  intros (_ & _ & Hok). f_equal. eauto.
Qed.

Lemma tracks_ok_lookup (ls : list string) (qs : list PLine) (iPar k : nat)
    (q : PLine) :
  tracks_ok iPar ls qs -> qs !! k = Some q ->
  exists l, ls !! k = Some l /\ scan_P l = Some q
            /\ bad_track (iPar + k) q = false.
Proof.
  revert qs iPar k; induction ls as [| l ls IH]; intros [| q0 qs] iPar k;
    simpl; try tauto; try discriminate.
  intros (Hq & Hbad & Hok) Hk. destruct k as [| k]; simpl in Hk.
  - injection Hk as ->. exists l. rewrite Nat.add_0_r. auto.
  - destruct (IH _ _ _ Hok Hk) as (l' & Hl & Hs & Hb).
    exists l'. replace (iPar + S k)%nat with (S iPar + k)%nat by lia. auto.
Qed.

Lemma tracks_ok_lookup_line (ls : list string) (qs : list PLine)
    (iPar k : nat) (l : string) :
  tracks_ok iPar ls qs -> ls !! k = Some l ->
  exists q, qs !! k = Some q /\ scan_P l = Some q.
Proof.
  revert qs iPar k; induction ls as [| l0 ls IH]; intros [| q0 qs] iPar k;
    simpl; try tauto; try discriminate.
  intros (Hq & Hbad & Hok) Hk. destruct k as [| k]; simpl in Hk.
  - injection Hk as ->. exists q0. auto.
  - exact (IH _ _ _ Hok Hk).
Qed.

(* ===================================================================== *)
(** * Records and output lines of one event *)
(* ===================================================================== *)

Lemma lookup_In_drop {A : Type} (l : list A) (i j : nat) (x : A) :
  (i <= j)%nat -> l !! j = Some x -> In x (drop i l).
Proof.
  intros Hij Hj. apply list_elem_of_In, list_elem_of_lookup.
  exists (j - i)%nat. rewrite lookup_drop.
  replace (i + (j - i))%nat with j by lia. exact Hj.
Qed.

Lemma In_drop_lookup {A : Type} (l : list A) (i : nat) (x : A) :
  In x (drop i l) -> exists j, (i <= j)%nat /\ l !! j = Some x.
Proof.
  intros Hin. apply list_elem_of_In, list_elem_of_lookup in Hin as [k Hk].
  rewrite lookup_drop in Hk. exists (i + k)%nat. split; [lia | exact Hk].
Qed.

(** On the lines of an event that was read, [has_child] over the later
    lines is [declared_parent]. *)
Lemma has_child_declared (ls rest : list string) (qs : list PLine) (i : nat) :
  tracks_ok 0 ls qs ->
  has_child i (drop (S i) qs) = true
  <-> declared_parent (ls ++ rest) (length ls) i.
Proof.
  intros Hok. pose proof (tracks_ok_length _ _ _ Hok) as Hlen.
  unfold has_child, declared_parent. rewrite existsb_exists. split.
  - intros (q & Hin & Hq). apply Z.eqb_eq in Hq.
    apply In_drop_lookup in Hin as (j & Hj & Hlk).
    destruct (tracks_ok_lookup _ _ _ _ _ Hok Hlk) as (l & Hl & Hs & _).
    exists j, l, q. pose proof (lookup_lt_Some _ _ _ Hl).
    repeat split; auto; try lia.
    rewrite lookup_app_l by lia. exact Hl.
  - intros (j & l & q & Hj & Hl & Hs & Hq).
    rewrite lookup_app_l in Hl by lia.
    destruct (tracks_ok_lookup_line _ _ _ _ _ Hok Hl) as (q' & Hlk & Hs').
    assert (q' = q) by congruence. subst q'.
    exists q. split; [| now apply Z.eqb_eq].
    apply (lookup_In_drop _ _ j); [lia | exact Hlk].
Qed.

(** The records of an event that was read: record [i] carries the fields
    of line [i], which passed the tests of line 69, and its status is 2 or
    1 according to whether a later line declares it as parent. *)
Lemma read_event_records (n : nat) (lines rest : list string)
    (parV : list Particle) :
  Z.of_nat n <= INT_MAX ->
  read_particles n 0 lines (replicate n Particle0) = inl (parV, rest) ->
  length parV = n /\
  forall i, (i < n)%nat ->
    exists l q st,
      lines !! i = Some l /\ scan_P l = Some q
      /\ P_label q = "P" /\ P_parI q = Z.of_nat i + 1 /\ P_momI q < P_parI q
      /\ parV !! i = Some (mkParticle (P_pdgId q) st (P_momI q)
                             (mkE (P_px q) (P_py q) (P_pz q) (P_en q)))
      /\ ((st = 2 /\ declared_parent lines n i)
          \/ (st = 1 /\ ~ declared_parent lines n i)).
Proof.
  intros Hn Hread.
  apply read_particles_inl in Hread as (ls & qs & -> & Hlen & Hok & ->).
  pose proof (tracks_ok_length _ _ _ Hok) as Hqlen.
  assert (Hvalid : forall j q, qs !! j = Some q ->
            P_label q = "P" /\ P_parI q = Z.of_nat j + 1
            /\ P_momI q < P_parI q).
  { intros j q Hj. pose proof (lookup_lt_Some _ _ _ Hj).
    destruct (tracks_ok_lookup _ _ _ _ _ Hok Hj) as (l & _ & Hs & Hb).
    apply scan_P_range in Hs as [Hr _].
    apply bad_track_false in Hb; [exact Hb | exact Hr | simpl; lia]. }
  split.
  - rewrite build_length, length_replicate. reflexivity.
  - intros i Hi.
    destruct (lookup_lt_is_Some_2 qs i) as [q Hq]; [lia |].
    destruct (tracks_ok_lookup _ _ _ _ _ Hok Hq) as (l & Hl & Hs & _).
    destruct (Hvalid _ _ Hq) as (Hlab & Hpar & Hmom).
    exists l, q, (if has_child i (drop (S i) qs) then 2 else 1).
    split; [rewrite lookup_app_l by lia; exact Hl |].
    repeat (split; [assumption |]).
    split.
    + apply (build_lookup_at qs 0 i q); [exact Hq | |].
      * rewrite length_replicate. simpl. lia.
      * intros j q' Hj. destruct (Hvalid _ _ Hj) as (_ & ? & ?).
        simpl. lia.
    + subst n. pose proof (has_child_declared ls rest qs i Hok) as Hiff.
      destruct (has_child i (drop (S i) qs)).
      * left. split; [reflexivity | apply Hiff; reflexivity].
      * right. split; [reflexivity |]. intros Hd. apply Hiff in Hd.
        discriminate.
Qed.

(** The mother index of a record of an event that was read is below the
    declared count, so that [momI + 2] on line 93 cannot overflow unless
    the event has 2^31 - 1 particles. *)
Lemma mother_index_bound (n : nat) (lines rest : list string)
    (parV : list Particle) (i : nat) (pV : Particle) :
  Z.of_nat n < INT_MAX ->
  read_particles n 0 lines (replicate n Particle0) = inl (parV, rest) ->
  parV !! i = Some pV ->
  INT_MIN <= momI pV /\ momI pV + 2 <= INT_MAX.
Proof.
  intros Hn Hread Hi.
  destruct (read_event_records n lines rest parV ltac:(lia) Hread) as [Hlen Hrec].
  pose proof (lookup_lt_Some _ _ _ Hi) as Hlt. rewrite Hlen in Hlt.
  destruct (Hrec i Hlt) as (l & q & st & _ & Hq & _ & Hpar & Hmom & Hlk & _).
  rewrite Hlk in Hi. injection Hi as <-. simpl.
  destruct (scan_P_range _ _ Hq) as [_ Hr]. lia.
Qed.

Lemma emitted_cons (parV : list Particle) :
  emitted parV =
    write_particle (fake_photon ((mZ (sum_final parV) - mE (sum_final parV)) / 2))
    :: write_particle (fake_photon ((mZ (sum_final parV) + mE (sum_final parV)) / 2))
    :: map write_particle parV.
Proof. reflexivity. Qed.

Lemma emitted_original (parV : list Particle) (i : nat) :
  emitted parV !! (2 + i)%nat = write_particle <$> parV !! i.
Proof. rewrite emitted_cons. simpl. apply list_lookup_fmap. Qed.

(** C4: in an event that was read, the emitted status of the particle of
    line [i] is 2 exactly when a later line of the event declares position
    [i + 1] as its parent, and 1 otherwise; the status field of the input
    line plays no part. *)
Theorem status_promotion (n : nat) (lines rest : list string)
    (parV : list Particle) :
  Z.of_nat n <= INT_MAX ->
  read_particles n 0 lines (replicate n Particle0) = inl (parV, rest) ->
  forall i, (i < n)%nat ->
    exists o,
      emitted parV !! (2 + i)%nat = Some o
      /\ ((out_status o = Some 2 /\ declared_parent lines n i)
          \/ (out_status o = Some 1 /\ ~ declared_parent lines n i)).
Proof.
  intros Hn Hread i Hi.
  destruct (read_event_records _ _ _ _ Hn Hread) as [_ Hrec].
  destruct (Hrec i Hi) as (l & q & st & _ & _ & _ & _ & _ & Hlk & Hst).
  rewrite emitted_original, Hlk. eexists. split; [reflexivity |].
  simpl. destruct Hst as [[-> Hd] | [-> Hd]]; auto.
Qed.

Lemma status_promotion_witness :
  exists parV o,
    read_particles 2 0 ex_tracks (replicate 2 Particle0) = inl (parV, [])
    /\ emitted parV !! 2%nat = Some o
    /\ ((out_status o = Some 2 /\ declared_parent ex_tracks 2 0)
        \/ (out_status o = Some 1 /\ ~ declared_parent ex_tracks 2 0)).
Proof.
  eexists.
  assert (Hread : read_particles 2 0 ex_tracks (replicate 2 Particle0)
                  = inl (_, [])) by reflexivity.
  destruct (status_promotion 2 ex_tracks [] _ ltac:(unfold INT_MAX; lia)
              Hread 0%nat ltac:(lia)) as (o & Ho & Hst).
  exists o. auto.
Defined.

(** C5: in an event that was read, the particle of a line whose parent
    index is 0 is written with the parent columns "1 2", the particle of a
    line whose parent index m is positive with "m+2 0", both with status 1
    or 2; the two records in front of them, the synthesized photons, are
    written with "0 0". *)
Theorem parent_columns (n : nat) (lines rest : list string)
    (parV : list Particle) :
  Z.of_nat n <= INT_MAX ->
  read_particles n 0 lines (replicate n Particle0) = inl (parV, rest) ->
  (exists o, emitted parV !! 0%nat = Some o
             /\ out_status o = Some (-1) /\ out_momS o = Some "0 0")
  /\ (exists o, emitted parV !! 1%nat = Some o
                /\ out_status o = Some (-1) /\ out_momS o = Some "0 0")
  /\ forall i l q,
       (i < n)%nat -> lines !! i = Some l -> scan_P l = Some q ->
       exists o,
         emitted parV !! (2 + i)%nat = Some o
         /\ (out_status o = Some 1 \/ out_status o = Some 2)
         /\ (P_momI q = 0 -> out_momS o = Some "1 2")
         /\ (0 < P_momI q ->
             out_momS o = Some (to_string (P_momI q + 2) ++ " 0")%string).
Proof.
  intros Hn Hread.
  rewrite emitted_cons, !write_fake_photon.
  split; [eexists; simpl; eauto |]. split; [eexists; simpl; eauto |].
  intros i l q Hi Hl Hq.
  destruct (read_event_records _ _ _ _ Hn Hread) as [_ Hrec].
  destruct (Hrec i Hi) as (l' & q' & st & Hl' & Hq' & _ & _ & _ & Hlk & Hst).
  assert (l' = l) by congruence. subst l'.
  assert (q' = q) by congruence. subst q'.
  change (?a :: ?b :: map write_particle parV) with ([a; b] ++ map write_particle parV).
  rewrite lookup_app_r by (simpl; lia). simpl.
  replace (i - 0)%nat with i by lia.
  rewrite list_lookup_fmap, Hlk. eexists. split; [reflexivity |].
  unfold write_particle, momS_of; simpl.
  assert (Hpos : (0 <? st) = true) by (destruct Hst as [[-> _] | [-> _]]; reflexivity).
  rewrite Hpos. split; [destruct Hst as [[-> _] | [-> _]]; auto |].
  split.
  - intros ->. reflexivity.
  - intros Hm. destruct (Z.eqb_spec (P_momI q) 0); [lia | reflexivity].
Qed.

Lemma parent_columns_witness :
  exists parV o,
    read_particles 2 0 ex_tracks (replicate 2 Particle0) = inl (parV, [])
    /\ emitted parV !! 3%nat = Some o
    /\ out_momS o = Some "3 0".
Proof.
  eexists.
  assert (Hread : read_particles 2 0 ex_tracks (replicate 2 Particle0)
                  = inl (_, [])) by reflexivity.
  destruct (parent_columns 2 ex_tracks [] _ ltac:(unfold INT_MAX; lia) Hread)
    as (_ & _ & Horig).
  assert (Hs : exists q, scan_P "P 2 1 11 0 0 3 5 0.000511 1" = Some q
                         /\ P_momI q = 1) by (eexists; split; reflexivity).
  destruct Hs as (q & Hq & Hm).
  destruct (Horig 1%nat _ q ltac:(lia) eq_refl Hq) as (o & Ho & _ & _ & Hpar).
  exists o. split; [exact Hread |]. split; [exact Ho |].
  rewrite Hm in Hpar. exact (Hpar ltac:(lia)).
Defined.



(* ===================================================================== *)
(** * The event loop *)
(* ===================================================================== *)

Lemma read_particles_rest (n iPar : nat) (lines rest : list string)
    (parV parV' : list Particle) :
  read_particles n iPar lines parV = inl (parV', rest) ->
  (length rest <= length lines)%nat.
Proof.
  intros H. apply read_particles_inl in H as (ls & qs & -> & _).
  rewrite length_app. lia.
Qed.

(** The loop reads at least one line per turn, so it never needs more
    fuel than there are lines: any two sufficient amounts give the same
    run. *)
Lemma events_loop_fuel (fuel fuel' : nat) (lines : list string)
    (out : list OutLine) (nEvt : nat) :
  (length lines < fuel)%nat -> (length lines < fuel')%nat ->
  events_loop fuel lines out nEvt = events_loop fuel' lines out nEvt.
Proof.
  revert fuel' lines out nEvt; induction fuel as [| fuel IH];
    intros [| fuel'] lines out nEvt Hf Hf'; try lia.
  destruct lines as [| line rest]; [reflexivity |].
  simpl in Hf, Hf'. cbn [events_loop].
  destruct (contains "END_EVENT_LISTING" line); [reflexivity |].
  destruct (negb (starts_with "E " line)); [apply IH; lia |].
  destruct (scan_E line) as [[[[label iEvt] nVtx] nPar] |]; [| reflexivity].
  destruct (negb (label =? "E")%string); [reflexivity |].
  destruct rest as [| uline rest1]; [reflexivity |].
  destruct (scan_U uline) as [ulabel |]; [| reflexivity].
  destruct (negb (ulabel =? "U")%string); [reflexivity |].
  destruct (nPar <? 0); [reflexivity |].
  destruct (read_particles _ 0 rest1 _) as [[parV rest2] | bad] eqn:Hr;
    [| reflexivity].
  apply read_particles_rest in Hr. simpl in Hf, Hf'. apply IH; lia.
Qed.

Lemma events_loop_run (fuel : nat) (lines : list string)
    (out : list OutLine) (nEvt : nat) :
  (length lines < fuel)%nat ->
  events_loop fuel lines out nEvt = run_events lines out nEvt.
Proof. intros H. apply events_loop_fuel; [exact H | lia]. Qed.

(** The fuel of [run_events] is never used up. *)
Lemma run_events_terminates (lines : list string) (out : list OutLine)
    (nEvt : nat) :
  snd (run_events lines out nEvt) <> OutOfFuel.
Proof.
  unfold run_events.
  assert (H : forall fuel ls o n, (length ls < fuel)%nat ->
            snd (events_loop fuel ls o n) <> OutOfFuel).
  { induction fuel as [| fuel IH]; intros ls o n Hf; [lia |].
    destruct ls as [| line rest]; [discriminate |].
    simpl in Hf. cbn [events_loop].
    destruct (contains "END_EVENT_LISTING" line); [discriminate |].
    destruct (negb (starts_with "E " line)); [apply IH; lia |].
    destruct (scan_E line) as [[[[label iEvt] nVtx] nPar] |]; [| discriminate].
    destruct (negb (label =? "E")%string); [discriminate |].
    destruct rest as [| uline rest1]; [discriminate |].
    destruct (scan_U uline) as [ulabel |]; [| discriminate].
    destruct (negb (ulabel =? "U")%string); [discriminate |].
    destruct (nPar <? 0); [discriminate |].
    destruct (read_particles _ 0 rest1 _) as [[parV rest2] | bad] eqn:Hr;
      [| discriminate].
    apply read_particles_rest in Hr. simpl in Hf. apply IH; lia. }
  apply H. lia.
Qed.

Lemma run_events_nil (out : list OutLine) (nEvt : nat) :
  run_events [] out nEvt = (out, Finished nEvt).
Proof. reflexivity. Qed.

Lemma run_events_end (line : string) (rest : list string)
    (out : list OutLine) (nEvt : nat) :
  contains "END_EVENT_LISTING" line = true ->
  run_events (line :: rest) out nEvt = (out, Finished nEvt).
Proof. intros H. unfold run_events. cbn [events_loop]. rewrite H. reflexivity. Qed.

Lemma run_events_skip (line : string) (rest : list string)
    (out : list OutLine) (nEvt : nat) :
  skipped line ->
  run_events (line :: rest) out nEvt = run_events rest out nEvt.
Proof.
  intros [Hend HE]. unfold run_events at 1. cbn [events_loop].
  rewrite Hend, HE. simpl negb. cbv iota.
  apply events_loop_run. simpl. lia.
Qed.

Lemma run_events_skips (pre rest : list string) (out : list OutLine)
    (nEvt : nat) :
  Forall skipped pre ->
  run_events (pre ++ rest) out nEvt = run_events rest out nEvt.
Proof.
  induction 1 as [| line pre Hline _ IH]; simpl; [reflexivity |].
  rewrite run_events_skip by assumption. exact IH.
Qed.

Lemma run_events_bad_header (line : string) (rest : list string)
    (out : list OutLine) (nEvt : nat) :
  contains "END_EVENT_LISTING" line = false ->
  starts_with "E " line = true ->
  scan_E line = None ->
  run_events (line :: rest) out nEvt = (out, event_error line).
Proof.
  intros Hend HE Hscan. unfold run_events. cbn [events_loop].
  rewrite Hend, HE, Hscan. reflexivity.
Qed.

(** The turn of the loop that reads a whole event. *)
Lemma run_events_event (k : nat) (eline uline : string)
    (ps rest : list string) (qs : list PLine) (out : list OutLine)
    (nEvt : nat) :
  header_of k eline -> units_line uline ->
  length ps = k -> tracks_ok 0 ps qs ->
  run_events (eline :: uline :: ps ++ rest) out nEvt =
    run_events rest
      (out ++ write_event (add_fake_photons (build 0 qs (replicate k Particle0))))
      (S nEvt).
Proof.
  intros (Hend & HE & iEvt & nVtx & Hscan) HU Hlen Hok.
  unfold run_events at 1. cbn [events_loop].
  rewrite Hend, HE, Hscan. unfold units_line in HU. rewrite HU. simpl negb.
  cbv iota. destruct (Z.ltb_spec (Z.of_nat k) 0) as [Hneg | _]; [lia |].
  rewrite Nat2Z.id. subst k. rewrite read_particles_ok with (qs := qs) by exact Hok.
  apply events_loop_run. simpl. rewrite length_app. lia.
Qed.

(** The turn of the loop in which line 69 throws. *)
Lemma run_events_bad_track (k : nat) (eline uline bad : string)
    (ps rest : list string) (qs : list PLine) (out : list OutLine)
    (nEvt : nat) :
  header_of k eline -> units_line uline ->
  (length ps < k)%nat -> tracks_ok 0 ps qs ->
  read_particle (length ps) bad (build 0 qs (replicate k Particle0)) = None ->
  run_events (eline :: uline :: ps ++ bad :: rest) out nEvt =
    (out, track_error bad).
Proof.
  intros (Hend & HE & iEvt & nVtx & Hscan) HU Hlen Hok Hbad.
  unfold run_events at 1. cbn [events_loop].
  rewrite Hend, HE, Hscan. unfold units_line in HU. rewrite HU. simpl negb.
  cbv iota. destruct (Z.ltb_spec (Z.of_nat k) 0) as [Hneg | _]; [lia |].
  rewrite Nat2Z.id.
  assert (Hr : forall ls qs' iPar m parV,
            tracks_ok iPar ls qs' ->
            read_particle (iPar + length ls) bad (build iPar qs' parV) = None ->
            read_particles (length ls + S m) iPar (ls ++ bad :: rest) parV
              = inr bad).
  { induction ls as [| l ls IH]; intros [| q qs'] iPar m parV; simpl; try tauto.
    - intros _. rewrite Nat.add_0_r. intros ->. reflexivity.
    - intros (Hq & Hb & Hok') Hnone. unfold read_particle at 1.
      rewrite Hq, Hb. apply IH with (qs' := qs'); [exact Hok' |].
      replace (S iPar + length ls)%nat with (iPar + S (length ls))%nat by lia.
      exact Hnone. }
  replace k with (length ps + S (k - length ps - 1))%nat at 1 by lia.
  rewrite (Hr ps qs 0%nat _ _ Hok Hbad). reflexivity.
Qed.

Lemma track_of_tracks_ok (ps : list string) (iPar : nat) :
  Z.of_nat (iPar + length ps) <= INT_MAX ->
  (forall i l, ps !! i = Some l -> track_of (iPar + i) l) ->
  exists qs, tracks_ok iPar ps qs.
Proof.
  revert iPar; induction ps as [| l ps IH]; intros iPar Hmax Htr.
  - exists []. exact I.
  - destruct (Htr 0%nat l eq_refl) as (q & Hq & Hlab & Hpar & Hmom).
    rewrite Nat.add_0_r in Hpar. simpl in Hmax.
    destruct (IH (S iPar)) as [qs Hqs].
    + lia.
    + intros i l' Hl'. replace (S iPar + i)%nat with (iPar + S i)%nat by lia.
      apply Htr. exact Hl'.
    + exists (q :: qs). simpl. split; [exact Hq |]. split; [| exact Hqs].
      apply bad_track_false; [apply (scan_P_range _ _ Hq) | lia | auto].
Qed.

Lemma header_of_bound (k : nat) (eline : string) :
  header_of k eline -> Z.of_nat k <= INT_MAX.
Proof. intros (_ & _ & iEvt & nVtx & Hscan). exact (scan_E_range _ _ _ _ _ Hscan). Qed.

Lemma write_event_block (k : nat) (parV : list Particle) :
  length parV = k -> event_block k (write_event (add_fake_photons parV)).
Proof.
  intros Hlen. exists (emitted parV). unfold write_event, emitted.
  rewrite add_fake_photons_cons. simpl. rewrite Hlen, length_map, Hlen.
  replace (S (S k)) with (k + 2)%nat by lia.
  repeat split. rewrite forallb_forall. intros o Hin.
  apply in_map_iff in Hin as (pV & <- & _). reflexivity.
Qed.

(** A well-formed event is read in one turn and adds one block. *)
Lemma run_events_wf_event (k : nat) (ev : EventText) :
  wf_event k ev ->
  exists b, event_block k b /\
    forall rest out nEvt,
      run_events (event_lines ev ++ rest) out nEvt =
        run_events rest (out ++ b) (S nEvt).
Proof.
  intros (Hskip & Hhead & HU & Hlen & Htr).
  destruct (track_of_tracks_ok (ev_P ev) 0) as [qs Hqs].
  - simpl. rewrite Hlen. exact (header_of_bound _ _ Hhead).
  - exact Htr.
  - exists (write_event (add_fake_photons (build 0 qs (replicate k Particle0)))).
    split.
    + apply write_event_block. rewrite build_length. apply length_replicate.
    + intros rest out nEvt. unfold event_lines.
      rewrite <- app_assoc, run_events_skips by exact Hskip.
      simpl. apply run_events_event; assumption.
Qed.

(** A sequence of well-formed events adds its blocks in order and leaves
    the loop where it found it. *)
Lemma run_events_wf_events (ks : list nat) (evs : list EventText) :
  Forall2 wf_event ks evs ->
  exists blocks, Forall2 event_block ks blocks /\
    forall rest out nEvt,
      run_events (concat (map event_lines evs) ++ rest) out nEvt =
        run_events rest (out ++ concat blocks) (nEvt + length evs).
Proof.
  induction 1 as [| k ev ks evs Hev _ (blocks & Hblocks & IH)].
  - exists []. split; [constructor |]. intros rest out nEvt. simpl.
    rewrite app_nil_r, Nat.add_0_r. reflexivity.
  - destruct (run_events_wf_event k ev Hev) as (b & Hb & Hrun).
    exists (b :: blocks). split; [constructor; assumption |].
    intros rest out nEvt. simpl. rewrite <- !app_assoc, Hrun, IH.
    rewrite <- !app_assoc. f_equal. lia.
Qed.

Lemma run_events_wf_tail (tail : list string) (out : list OutLine)
    (nEvt : nat) :
  wf_tail tail -> run_events tail out nEvt = (out, Finished nEvt).
Proof.
  intros (pre & post & -> & Hpre & Hpost).
  rewrite run_events_skips by exact Hpre.
  destruct post as [| m post]; [reflexivity |].
  apply run_events_end, Hpost.
Qed.

(* ===================================================================== *)
(** * Order and shape of the synthesized records *)
(* ===================================================================== *)



(** C9: the two synthesized records are written with mass 0 and with an
    energy that is the absolute value of their pz, hence not negative,
    whatever the sign of the pz they were built from. *)
Theorem fake_photons_massless (parV : list Particle) :
  exists pzB pzA,
    emitted parV =
      ParticleLine 22 (-1) "0 0" 0 0 pzB (Rabs pzB) 0
      :: ParticleLine 22 (-1) "0 0" 0 0 pzA (Rabs pzA) 0
      :: map write_particle parV
    /\ pzA = ((mZ (sum_final parV) + mE (sum_final parV)) / 2)%R
    /\ pzB = ((mZ (sum_final parV) - mE (sum_final parV)) / 2)%R
    /\ (0 <= Rabs pzA)%R /\ (0 <= Rabs pzB)%R.
Proof.
  do 2 eexists. rewrite emitted_cons, !write_fake_photon.
  repeat split; apply Rabs_pos.
Qed.

(* ===================================================================== *)
(** * Whole runs *)
(* ===================================================================== *)

Lemma ex_event_wf : wf_event 1 ex_event.
Proof.
  unfold wf_event, ex_event; simpl.
  split; [repeat constructor |].
  split; [repeat split; do 2 eexists; reflexivity |].
  split; [reflexivity |]. split; [reflexivity |].
  intros [| i] l Hl; simpl in Hl; [| discriminate]. injection Hl as <-.
  eexists. split; [reflexivity |]. simpl. repeat split; lia.
Qed.

(** C6: a listing of N well-formed events with declared counts k_1 .. k_N,
    followed by nothing or by the end marker, is converted into the
    header, N event blocks and the closing tag; block i states the count
    k_i + 2 on its first line and holds k_i + 2 particle lines. *)
Theorem well_formed_listing_blocks (ks : list nat) (evs : list EventText)
    (tail : list string) (beamE1 beamE2 : R) (xsec : option (R * R)) :
  Forall2 wf_event ks evs ->
  wf_tail tail ->
  exists blocks,
    Forall2 event_block ks blocks
    /\ convert_UGHEPMC2LHE (concat (map event_lines evs) ++ tail)
         beamE1 beamE2 xsec =
       (write_header beamE1 beamE2
          (fst (default (1%R, 3%R) xsec)) (snd (default (1%R, 3%R) xsec))
          ++ concat blocks ++ [Text "</LesHouchesEvents>"],
        Finished (length evs)).
Proof.
  intros Hevs Htail.
  destruct (run_events_wf_events ks evs Hevs) as (blocks & Hblocks & Hrun).
  exists blocks. split; [exact Hblocks |].
  unfold convert_UGHEPMC2LHE. destruct (default (1%R, 3%R) xsec) as [fid tot].
  rewrite Hrun, run_events_wf_tail by exact Htail.
  simpl fst; simpl snd. rewrite <- app_assoc. reflexivity.
Qed.

Lemma well_formed_listing_blocks_witness :
  exists blocks,
    Forall2 event_block [1%nat] blocks
    /\ convert_UGHEPMC2LHE
         (concat (map event_lines [ex_event])
            ++ ["HepMC::IO_GenEvent-END_EVENT_LISTING"]) 2510 2510 None =
       (write_header 2510 2510 1 3
          ++ concat blocks ++ [Text "</LesHouchesEvents>"],
        Finished 1).
Proof.
  apply (well_formed_listing_blocks [1%nat] [ex_event]
           ["HepMC::IO_GenEvent-END_EVENT_LISTING"] 2510 2510 None).
  - constructor; [exact ex_event_wf | constructor].
  - exists [], ["HepMC::IO_GenEvent-END_EVENT_LISTING"].
    split; [reflexivity |]. split; [constructor | reflexivity].
Defined.

(** C7: when, in an event that follows well-formed ones, a particle line
    tokenizes but declares a position other than its place in the event,
    or a parent index that is not below its position, the run throws the
    track-line error with that line, and the output holds the header and
    the blocks of the earlier events only. *)
Theorem bad_track_aborts (ks : list nat) (evs : list EventText)
    (skip : list string) (k : nat) (eline uline bad : string)
    (ps rest : list string) (q : PLine) (beamE1 beamE2 : R)
    (xsec : option (R * R)) :
  Forall2 wf_event ks evs ->
  Forall skipped skip ->
  header_of k eline ->
  units_line uline ->
  (length ps < k)%nat ->
  (forall i l, ps !! i = Some l -> track_of i l) ->
  scan_P bad = Some q ->
  P_parI q <> Z.of_nat (length ps) + 1 \/ P_parI q <= P_momI q ->
  exists blocks,
    Forall2 event_block ks blocks
    /\ convert_UGHEPMC2LHE
         (concat (map event_lines evs)
            ++ skip ++ eline :: uline :: ps ++ bad :: rest)
         beamE1 beamE2 xsec =
       (write_header beamE1 beamE2
          (fst (default (1%R, 3%R) xsec)) (snd (default (1%R, 3%R) xsec))
          ++ concat blocks,
        LogicError
          ("[convert_UGHEPMC2LHE] Failed to parse track line: " ++ bad)%string).
Proof.
  intros Hevs Hskip Hhead HU Hlen Htr Hq Hbad.
  destruct (run_events_wf_events ks evs Hevs) as (blocks & Hblocks & Hrun).
  exists blocks. split; [exact Hblocks |].
  pose proof (header_of_bound _ _ Hhead) as Hk.
  destruct (track_of_tracks_ok ps 0) as [qs Hqs]; [simpl; lia | exact Htr |].
  assert (Hnone : read_particle (length ps) bad
                    (build 0 qs (replicate k Particle0)) = None).
  { unfold read_particle. rewrite Hq.
    destruct (bad_track (length ps) q) eqn:Hb; [reflexivity |].
    apply bad_track_false in Hb;
      [lia | apply (scan_P_range _ _ Hq) | lia]. }
  unfold convert_UGHEPMC2LHE. destruct (default (1%R, 3%R) xsec) as [fid tot].
  rewrite Hrun, run_events_skips by exact Hskip.
  rewrite (run_events_bad_track k eline uline bad ps rest qs) by assumption.
  reflexivity.
Qed.

Lemma bad_track_aborts_witness :
  exists blocks,
    Forall2 event_block [1%nat] blocks
    /\ convert_UGHEPMC2LHE
         (concat (map event_lines [ex_event])
            ++ [] ++ "E 2 0 2" :: "U GEV MM"
            :: ["P 1 0 11 0 0 10 10.511 0.000511 1"] ++ ex_bad_track :: [])
         2510 2510 None =
       (write_header 2510 2510 1 3 ++ concat blocks,
        LogicError
          ("[convert_UGHEPMC2LHE] Failed to parse track line: "
             ++ ex_bad_track)%string).
Proof.
  assert (Hq : exists q, scan_P ex_bad_track = Some q /\ P_parI q = 1)
    by (eexists; split; reflexivity).
  destruct Hq as (q & Hq & Hpar).
  apply (bad_track_aborts [1%nat] [ex_event] [] 2 "E 2 0 2" "U GEV MM"
           ex_bad_track ["P 1 0 11 0 0 10 10.511 0.000511 1"] [] q
           2510 2510 None).
  - constructor; [exact ex_event_wf | constructor].
  - constructor.
  - repeat split; do 2 eexists; reflexivity.
  - reflexivity.
  - simpl. lia.
  - intros [| i] l Hl; simpl in Hl; [| discriminate]. injection Hl as <-.
    eexists. split; [reflexivity |]. simpl. repeat split; lia.
  - exact Hq.
  - left. rewrite Hpar. simpl. lia.
Defined.

(** A line that begins with "E " has the label E. *)
Lemma starts_with_E_label (line label : string) (iEvt nVtx nPar : Z) :
  starts_with "E " line = true ->
  scan_E line = Some (label, iEvt, nVtx, nPar) ->
  label = "E".
Proof.
  unfold starts_with. intros Hpre.
  destruct line as [| c1 [| c2 r]]; cbn [String.prefix] in Hpre;
    try discriminate.
  - destruct (ascii_dec "E" c1); discriminate.
  - destruct (ascii_dec "E" c1) as [<- |]; [| discriminate].
    destruct (ascii_dec " " c2) as [<- |]; [| discriminate].
    unfold scan_E, get_string. simpl.
    destruct (get_int (String " " r)) as [[? ?] |]; simpl; [| discriminate].
    bind_cases. intros [= <- _ _ _]. reflexivity.
Qed.

(** C8, counterexample: after the event of [ex_event], the surplus
    particle line [ex_surplus] is neither an event line nor the end
    marker, and the run ends normally with one event written. *)
Lemma surplus_track_line_is_passed_over :
  contains "END_EVENT_LISTING" ex_surplus = false
  /\ starts_with "E " ex_surplus = false
  /\ (forall iEvt nVtx nPar,
        scan_E ex_surplus <> Some ("E", iEvt, nVtx, nPar))
  /\ snd (convert_UGHEPMC2LHE (event_lines ex_event ++ [ex_surplus])
            2510 2510 None) = Finished 1.
Proof.
  split; [reflexivity |]. split; [reflexivity |]. split.
  - intros iEvt nVtx nPar. discriminate.
  - destruct (run_events_wf_event 1 ex_event ex_event_wf) as (b & _ & Hrun).
    unfold convert_UGHEPMC2LHE. simpl default. cbv iota beta.
    rewrite Hrun, run_events_skip by (split; reflexivity).
    reflexivity.
Qed.

(** C8, amended: while the loop expects an event line, a line without the
    end marker is passed over when it does not begin with "E ", surplus
    particle lines included: the run goes on with the next line, nothing
    written; and it throws the event-line error when it begins with "E "
    and the label and three integers cannot be extracted from it. *)
Theorem header_state_lines (line : string) (rest : list string)
    (out : list OutLine) (nEvt : nat) :
  contains "END_EVENT_LISTING" line = false ->
  (starts_with "E " line = false ->
     run_events (line :: rest) out nEvt = run_events rest out nEvt)
  /\ (starts_with "E " line = true -> scan_E line = None ->
        run_events (line :: rest) out nEvt =
          (out, LogicError
                  ("[convert_UGHEPMC2LHE] Failed to parse event line: "
                     ++ line)%string)).
Proof.
  intros Hend. split.
  - intros HE. apply run_events_skip. split; assumption.
  - intros HE Hscan. apply run_events_bad_header; assumption.
Qed.

Lemma header_state_lines_witness :
  run_events [ex_surplus; "E 1 0 x"] [] 0 =
    ([], LogicError
           "[convert_UGHEPMC2LHE] Failed to parse event line: E 1 0 x").
Proof.
  destruct (header_state_lines ex_surplus ["E 1 0 x"] [] 0 eq_refl)
    as [Hskip _].
  rewrite (Hskip eq_refl).
  destruct (header_state_lines "E 1 0 x" [] [] 0 eq_refl) as [_ Hbad].
  exact (Hbad eq_refl eq_refl).
Defined.

(* ===================================================================== *)
(** * Searching and cutting strings *)
(* ===================================================================== *)

Section CharSearch.

Variable c : ascii.

Let pat : string := String c EmptyString.

Lemma prefix_char_same (b : string) : String.prefix pat (String c b) = true.
Proof.
  unfold pat. cbn [String.prefix].
  destruct (ascii_dec c c) as [_ | Hne]; [destruct b; reflexivity | congruence].
Qed.

Lemma prefix_char_diff (x : ascii) (b : string) :
  c <> x -> String.prefix pat (String x b) = false.
Proof.
  intros Hne. unfold pat. cbn [String.prefix].
  destruct (ascii_dec c x); [congruence | reflexivity].
Qed.

Lemma contains_char_cons (x : ascii) (s : string) :
  contains pat (String x s) = if ascii_dec c x then true else contains pat s.
Proof.
  cbn [contains]. destruct (ascii_dec c x) as [<- | Hne].
  - rewrite prefix_char_same. reflexivity.
  - rewrite prefix_char_diff by assumption. reflexivity.
Qed.

Lemma contains_char_app (a b : string) :
  contains pat (a ++ b) = contains pat a || contains pat b.
Proof.
  induction a as [| x a IH].
  - reflexivity.
  - change (String x a ++ b)%string with (String x (a ++ b)).
    rewrite !contains_char_cons, IH. destruct (ascii_dec c x); reflexivity.
Qed.

Lemma contains_char_substring (s : string) (n m : nat) :
  contains pat s = false -> contains pat (substring n m s) = false.
Proof.
  revert n m; induction s as [| x s IH]; intros n m Hs.
  - destruct n, m; reflexivity.
  - rewrite contains_char_cons in Hs.
    destruct (ascii_dec c x) as [| Hne]; [discriminate |].
    destruct n as [| n]; [destruct m as [| m] |]; cbn [substring].
    + reflexivity.
    + rewrite contains_char_cons.
      destruct (ascii_dec c x); [contradiction | auto].
    + auto.
Qed.

(** Without an occurrence the scan returns the position it started with. *)
Lemma rfind_from_none (s : string) (i last : Z) :
  contains pat s = false -> rfind_from pat s i last = last.
Proof.
  revert i last; induction s as [| x s IH]; intros i last Hs.
  - reflexivity.
  - rewrite contains_char_cons in Hs.
    destruct (ascii_dec c x) as [| Hne]; [discriminate |].
    cbn [rfind_from]. rewrite prefix_char_diff by assumption. auto.
Qed.

(** The scan returns the position of an occurrence that no other
    follows. *)
Lemma rfind_from_last (a b : string) (i last : Z) :
  contains pat b = false ->
  rfind_from pat (a ++ String c b) i last = i + Z.of_nat (String.length a).
Proof.
  intros Hb. revert i last; induction a as [| x a IH]; intros i last.
  - cbn [append rfind_from String.length]. rewrite prefix_char_same.
    rewrite rfind_from_none by assumption. lia.
  - change (String x a ++ String c b)%string with (String x (a ++ String c b)).
    cbn [rfind_from String.length]. rewrite IH. lia.
Qed.

Lemma rfind_char_none (s : string) :
  contains pat s = false -> rfind pat s = npos.
Proof. apply rfind_from_none. Qed.

Lemma rfind_char_last (a b : string) :
  contains pat b = false ->
  rfind pat (a ++ String c b) = Z.of_nat (String.length a).
Proof. intros Hb. unfold rfind. rewrite rfind_from_last by assumption. lia. Qed.

(** A string either has no occurrence or splits at its last one. *)
Lemma last_char_split (s : string) :
  contains pat s = false
  \/ exists a b, s = (a ++ String c b)%string /\ contains pat b = false.
Proof.
  induction s as [| x s [Hnone | (a & b & -> & Hb)]].
  - left. reflexivity.
  - rewrite contains_char_cons. destruct (ascii_dec c x) as [<- | Hne].
    + right. exists EmptyString, s. auto.
    + left. assumption.
  - right. exists (String x a), b. auto.
Qed.

(** What lies behind the last occurrence, cut out of a prefix of the
    string, has no occurrence. *)
Lemma behind_last_char (a b : string) (m k : nat) :
  contains pat b = false ->
  contains pat
    (substring (S (String.length a)) k (substring 0 m (a ++ String c b)))
    = false.
Proof.
  intros Hb. revert m; induction a as [| x a IH]; intros m.
  - destruct m as [| m]; cbn [append String.length substring].
    + destruct k; reflexivity.
    + apply contains_char_substring, contains_char_substring, Hb.
  - change (String x a ++ String c b)%string with (String x (a ++ String c b)).
    destruct m as [| m]; cbn [String.length substring].
    + destruct k; reflexivity.
    + apply IH.
Qed.

End CharSearch.

Lemma string_length_app (a b : string) :
  String.length (a ++ b) = (String.length a + String.length b)%nat.
Proof. induction a as [| x a IH]; simpl; [reflexivity | now rewrite IH]. Qed.

Lemma string_app_assoc (a b d : string) :
  ((a ++ b) ++ d = a ++ (b ++ d))%string.
Proof. induction a as [| x a IH]; simpl; [reflexivity | now rewrite IH]. Qed.

Lemma substring_0_all (s : string) (n : nat) :
  (String.length s <= n)%nat -> substring 0 n s = s.
Proof.
  revert n; induction s as [| x s IH]; intros n Hn.
  - destruct n; reflexivity.
  - destruct n as [| n]; simpl in Hn; [lia |].
    cbn [substring]. rewrite IH by lia. reflexivity.
Qed.

Lemma substring_0_app (a b : string) :
  substring 0 (String.length a) (a ++ b) = a.
Proof.
  induction a as [| x a IH]; cbn [String.length append substring].
  - destruct b; reflexivity.
  - rewrite IH. reflexivity.
Qed.

Lemma substring_skip_app (a b : string) (n : nat) :
  substring (String.length a) n (a ++ b) = substring 0 n b.
Proof. induction a as [| x a IH]; [reflexivity | exact IH]. Qed.

Lemma substr_prefix (a b : string) :
  substr (a ++ b) 0 (Z.of_nat (String.length a)) = Some a.
Proof.
  unfold substr. rewrite string_length_app.
  destruct (Z.ltb_spec (Z.of_nat (String.length a + String.length b)) 0);
    [lia |].
  rewrite Z.min_l by lia. rewrite Nat2Z.id. simpl Z.to_nat.
  rewrite substring_0_app. reflexivity.
Qed.

Lemma substr_all (s : string) (len : Z) :
  Z.of_nat (String.length s) <= len -> substr s 0 len = Some s.
Proof.
  intros Hlen. unfold substr.
  destruct (Z.ltb_spec (Z.of_nat (String.length s)) 0); [lia |].
  rewrite Z.min_r by lia. rewrite Z.sub_0_r, Nat2Z.id. simpl Z.to_nat.
  rewrite substring_0_all by lia. reflexivity.
Qed.

Lemma substr_suffix (a b : string) (len : Z) :
  Z.of_nat (String.length b) <= len ->
  substr (a ++ b) (Z.of_nat (String.length a)) len = Some b.
Proof.
  intros Hlen. unfold substr. rewrite string_length_app.
  destruct (Z.ltb_spec (Z.of_nat (String.length a + String.length b))
              (Z.of_nat (String.length a))); [lia |].
  rewrite Z.min_r by lia. rewrite Nat2Z.id, substring_skip_app.
  rewrite substring_0_all by lia. reflexivity.
Qed.

Lemma substr_0_some (s : string) (len : Z) :
  exists d, substr s 0 len = Some d.
Proof.
  unfold substr.
  destruct (Z.ltb_spec (Z.of_nat (String.length s)) 0); [lia | eauto].
Qed.

(** The position behind the last slash of [pre ++ base] is the length of
    the directory prefix [pre]; without a slash [npos + 1] wraps to 0. *)
Lemma behind_last_slash (pre base : string) :
  dir_prefix pre ->
  contains "/" base = false ->
  Z.of_nat (String.length (pre ++ base)) < npos ->
  size_t_add (rfind "/" (pre ++ base)) 1 = Z.of_nat (String.length pre).
Proof.
  intros [-> | (d & ->)] Hbase Hlen; unfold size_t_add, npos in *.
  - cbn [append]. rewrite rfind_char_none by assumption. reflexivity.
  - rewrite string_app_assoc. cbn [append].
    rewrite rfind_char_last by assumption.
    rewrite !string_length_app in *. cbn [String.length] in *.
    rewrite Z.mod_small; lia.
Qed.

(* ===================================================================== *)
(** * The names of the output file and of the side file *)
(* ===================================================================== *)

Lemma slash_is_not_dot (s : string) :
  contains "/" (String "." s) = contains "/" s.
Proof.
  rewrite contains_char_cons.
  destruct (ascii_dec "/" ".") as [H | _]; [discriminate H | reflexivity].
Qed.

Lemma dot_is_not_slash (s : string) :
  contains "." (String "/" s) = contains "." s.
Proof.
  rewrite contains_char_cons.
  destruct (ascii_dec "." "/") as [H | _]; [discriminate H | reflexivity].
Qed.

Lemma out_name_of_stem (pre stem ext : string) :
  dir_prefix pre ->
  contains "/" stem = false ->
  contains "/" ext = false ->
  contains "." ext = false ->
  Z.of_nat (String.length (pre ++ stem ++ "." ++ ext)) < npos ->
  out_name (pre ++ stem ++ "." ++ ext) = Some (stem ++ ".lhe")%string.
Proof.
  intros Hpre Hstem Hext Hdot Hlen.
  change ("." ++ ext)%string with (String "." ext) in *.
  assert (Hslash : size_t_add (rfind "/" (pre ++ stem ++ String "." ext)) 1
                   = Z.of_nat (String.length pre)).
  { apply behind_last_slash; [assumption | | assumption].
    rewrite contains_char_app, slash_is_not_dot, Hstem, Hext. reflexivity. }
  unfold out_name. rewrite Hslash.
  rewrite <- string_app_assoc.
  rewrite rfind_char_last by assumption.
  rewrite substr_prefix. cbn [mbind option_bind].
  rewrite substr_suffix; [reflexivity |].
  rewrite <- string_app_assoc, !string_length_app in Hlen. unfold npos in *. lia.
Qed.

(** X1: for a path made of a directory prefix (empty or ending with a
    slash), a stem and an extension behind the last dot, the output file
    is named stem.lhe: the directory and the extension are dropped. *)
Theorem out_name_extension (pre stem ext : string) :
  dir_prefix pre ->
  contains "/" stem = false ->
  contains "/" ext = false ->
  contains "." ext = false ->
  Z.of_nat (String.length (pre ++ stem ++ "." ++ ext)) < npos ->
  out_name (pre ++ stem ++ "." ++ ext) = Some (stem ++ ".lhe")%string.
Proof. exact (out_name_of_stem pre stem ext). Qed.

Lemma out_name_extension_witness :
  out_name ("run/out/" ++ "events" ++ "." ++ "hepmc") = Some "events.lhe".
Proof.
  apply (out_name_extension "run/out/" "events" "hepmc").
  - right. exists "run/out". reflexivity.
  - reflexivity.
  - reflexivity.
  - reflexivity.
  - unfold npos. simpl. lia.
Defined.

(** X2: for a path without any dot, the output file is named after the
    part behind the last slash, with .lhe added. *)
Theorem out_name_no_dot (pre base : string) :
  dir_prefix pre ->
  contains "/" base = false ->
  contains "." (pre ++ base) = false ->
  Z.of_nat (String.length (pre ++ base)) < npos ->
  out_name (pre ++ base) = Some (base ++ ".lhe")%string.
Proof.
  intros Hpre Hbase Hdot Hlen. unfold out_name.
  rewrite behind_last_slash by assumption.
  rewrite rfind_char_none by assumption.
  rewrite substr_all by lia. cbn [mbind option_bind].
  rewrite substr_suffix; [reflexivity |].
  rewrite string_length_app in Hlen. lia.
Qed.

Lemma out_name_no_dot_witness :
  out_name ("run/" ++ "events") = Some "events.lhe".
Proof.
  apply (out_name_no_dot "run/" "events").
  - right. exists "run". reflexivity.
  - reflexivity.
  - reflexivity.
  - unfold npos. simpl. lia.
Defined.

Lemma xsec_path_of_prefix (pre base : string) :
  dir_prefix pre ->
  contains "/" base = false ->
  Z.of_nat (String.length (pre ++ base)) < npos ->
  xsec_path (pre ++ base) = Some (pre ++ "xsec.out")%string.
Proof.
  intros Hpre Hbase Hlen. unfold xsec_path.
  rewrite behind_last_slash by assumption.
  rewrite substr_prefix. reflexivity.
Qed.

(** X3: the side file xsec.out is looked for in the directory of the input
    file, in the current directory when the path has no slash. *)
Theorem xsec_path_directory (pre base : string) :
  dir_prefix pre ->
  contains "/" base = false ->
  Z.of_nat (String.length (pre ++ base)) < npos ->
  xsec_path (pre ++ base) = Some (pre ++ "xsec.out")%string.
Proof. exact (xsec_path_of_prefix pre base). Qed.

Lemma xsec_path_directory_witness :
  xsec_path ("run/out/" ++ "events.hepmc") = Some "run/out/xsec.out".
Proof.
  apply (xsec_path_directory "run/out/" "events.hepmc").
  - right. exists "run/out". reflexivity.
  - reflexivity.
  - unfold npos. simpl. lia.
Defined.

Lemma xsec_path_some (inFileName : string) :
  exists name, xsec_path inFileName = Some name.
Proof.
  unfold xsec_path.
  destruct (substr_0_some inFileName
              (size_t_add (rfind "/" inFileName) 1)) as [d ->].
  cbn [mbind option_bind]. eauto.
Qed.

(** The name of the output file throws when the last dot of the path
    stands before its last slash and not right in front of it... *)
Lemma out_name_dot_in_directory (a b base : string) :
  contains "." b = false ->
  contains "." base = false ->
  contains "/" base = false ->
  Z.of_nat (String.length (a ++ "." ++ b ++ "/" ++ base)) < npos ->
  out_name (a ++ "." ++ b ++ "/" ++ base) = None.
Proof.
  intros Hb Hbase Hslash Hlen.
  change ("." ++ b ++ "/" ++ base)%string with (String "." (b ++ String "/" base)) in *.
  assert (Hpos : size_t_add (rfind "/" (a ++ String "." (b ++ String "/" base))) 1
                 = Z.of_nat (String.length (a ++ String "." (b ++ "/")))).
  { replace (a ++ String "." (b ++ String "/" base))%string
      with ((a ++ String "." (b ++ "/")) ++ base)%string.
    - apply behind_last_slash; [| assumption |].
      + right. exists (a ++ String "." b)%string.
        rewrite string_app_assoc. reflexivity.
      + rewrite string_app_assoc. cbn [append].
        rewrite string_app_assoc. exact Hlen.
    - rewrite string_app_assoc. cbn [append].
      rewrite string_app_assoc. reflexivity. }
  unfold out_name. rewrite Hpos.
  rewrite rfind_char_last.
  - rewrite substr_prefix. cbn [mbind option_bind]. unfold substr.
    match goal with |- context [?x <? ?y] =>
      destruct (Z.ltb_spec x y) as [_ | H] end; [reflexivity |].
    rewrite !string_length_app in H. cbn [String.length] in H. lia.
  - rewrite contains_char_app, dot_is_not_slash, Hb, Hbase. reflexivity.
Qed.

(** X4: ... and then the conversion ends with [std::out_of_range] before
    an output file is created, although the input file was opened: this
    is the case of ./events and of ../run/events. *)
Theorem dot_in_directory_throws (fs : Files) (a b base : string)
    (lines : list string) (beamE1 beamE2 : R) :
  contains "." b = false ->
  contains "." base = false ->
  contains "/" base = false ->
  Z.of_nat (String.length (a ++ "." ++ b ++ "/" ++ base)) < npos ->
  read_lines fs (a ++ "." ++ b ++ "/" ++ base) = Some lines ->
  convert_file fs (a ++ "." ++ b ++ "/" ++ base) beamE1 beamE2 = OutOfRange.
Proof.
  intros Hb Hbase Hslash Hlen Hopen. unfold convert_file. rewrite Hopen.
  destruct (xsec_path_some (a ++ "." ++ b ++ "/" ++ base)) as [name ->].
  rewrite out_name_dot_in_directory by assumption. reflexivity.
Qed.

Lemma dot_in_directory_throws_witness :
  convert_file (mkFiles (fun _ => Some []) (fun _ => None) (fun _ => true))
    ("." ++ "." ++ "" ++ "/" ++ "events") 2510 2510 = OutOfRange.
Proof.
  apply (dot_in_directory_throws _ "." "" "events" []); reflexivity.
Defined.

(** X5: whenever the name of the output file is computed, it has no
    slash: the output file is created in the current directory. *)
Theorem out_name_no_slash (inFileName name : string) :
  Z.of_nat (String.length inFileName) < npos ->
  out_name inFileName = Some name ->
  contains "/" name = false.
Proof.
  intros Hlen. unfold out_name.
  destruct (substr inFileName 0 (rfind "." inFileName)) as [s1 |] eqn:H1;
    cbn [mbind option_bind]; [| discriminate].
  destruct (substr s1 (size_t_add (rfind "/" inFileName) 1) npos)
    as [s2 |] eqn:H2; cbn [mbind option_bind]; [| discriminate].
  intros [= <-]. rewrite contains_char_app.
  replace (contains "/" ".lhe") with false by reflexivity.
  rewrite orb_false_r.
  unfold substr in H1, H2.
  destruct (_ <? 0) in H1; [discriminate |]. injection H1 as <-.
  destruct (_ <? _) in H2; [discriminate |]. injection H2 as <-.
  destruct (last_char_split "/" inFileName) as [Hnone | (a & b & -> & Hb)].
  - apply contains_char_substring, contains_char_substring, Hnone.
  - rewrite rfind_char_last by assumption.
    rewrite string_length_app in Hlen. cbn [String.length] in Hlen.
    unfold size_t_add, npos in *. rewrite Z.mod_small by lia.
    replace (Z.to_nat (Z.of_nat (String.length a) + 1))
      with (S (String.length a)) by lia.
    simpl Z.to_nat at 2. apply behind_last_char, Hb.
Qed.

Lemma out_name_no_slash_witness :
  contains "/" "d.e.lhe" = false.
Proof.
  apply (out_name_no_slash "a/b.c/d.e.f" "d.e.lhe").
  - unfold npos. simpl. lia.
  - reflexivity.
Defined.

(* ===================================================================== *)
(** * What every run writes *)
(* ===================================================================== *)

Lemma read_particles_size (n iPar : nat) (lines rest : list string)
    (parV parV' : list Particle) :
  read_particles n iPar lines parV = inl (parV', rest) ->
  length parV' = length parV.
Proof.
  intros H. apply read_particles_inl in H as (ls & qs & _ & _ & _ & ->).
  apply build_length.
Qed.

(** The loop only appends whole event blocks to the output, one per event
    counted. *)
Lemma events_loop_blocks (fuel : nat) (lines : list string)
    (out : list OutLine) (nEvt : nat) :
  exists blocks,
    fst (events_loop fuel lines out nEvt) = out ++ concat blocks
    /\ Forall (fun b => exists k, event_block k b) blocks
    /\ forall m, snd (events_loop fuel lines out nEvt) = Finished m ->
                 m = (nEvt + length blocks)%nat.
Proof.
  assert (Hstop : forall (o : list OutLine) (r : Outcome) (n : nat),
            (forall m, r = Finished m -> m = n) ->
            exists blocks,
              fst (o, r) = o ++ concat blocks
              /\ Forall (fun b => exists k, event_block k b) blocks
              /\ forall m, snd (o, r) = Finished m ->
                           m = (n + length blocks)%nat).
  { intros o r n Hr. exists []. simpl. rewrite app_nil_r.
    split; [reflexivity |]. split; [constructor |].
    intros m Hm. rewrite (Hr m Hm). lia. }
  revert lines out nEvt; induction fuel as [| fuel IH]; intros lines out nEvt.
  { apply Hstop. discriminate. }
  destruct lines as [| line rest]; cbn [events_loop].
  { apply Hstop. now intros m [= <-]. }
  destruct (contains "END_EVENT_LISTING" line).
  { apply Hstop. now intros m [= <-]. }
  destruct (negb (starts_with "E " line)); [apply IH |].
  destruct (scan_E line) as [[[[label iEvt] nVtx] nPar] |];
    [| apply Hstop; discriminate].
  destruct (negb (label =? "E")%string); [apply Hstop; discriminate |].
  destruct rest as [| uline rest1]; [apply Hstop; discriminate |].
  destruct (scan_U uline) as [ulabel |]; [| apply Hstop; discriminate].
  destruct (negb (ulabel =? "U")%string); [apply Hstop; discriminate |].
  destruct (nPar <? 0); [apply Hstop; discriminate |].
  destruct (read_particles _ 0 rest1 _) as [[parV rest2] | bad] eqn:Hr;
    [| apply Hstop; discriminate].
  apply read_particles_size in Hr. rewrite length_replicate in Hr.
  destruct (IH rest2 (out ++ write_event (add_fake_photons parV)) (S nEvt))
    as (blocks & Hout & Hall & Hfin).
  exists (write_event (add_fake_photons parV) :: blocks).
  split; [rewrite Hout, <- app_assoc; reflexivity |].
  split.
  - constructor; [| exact Hall]. eexists. apply write_event_block, Hr.
  - intros m Hm. rewrite (Hfin m Hm). simpl. lia.
Qed.

Lemma last_concat_blocks (blocks : list (list OutLine)) :
  Forall (fun b => exists k, event_block k b) blocks ->
  last (concat blocks) = None \/ last (concat blocks) = Some (Text "</event>").
Proof.
  induction 1 as [| b blocks (k & ps & -> & _) _ IH]; [left; reflexivity |].
  right. cbn [concat]. rewrite last_app.
  destruct IH as [-> | ->]; [| reflexivity].
  change (Text "<event>" :: EventCount (k + 2) :: ps ++ [Text "</event>"])
    with ([Text "<event>"; EventCount (k + 2)] ++ ps ++ [Text "</event>"]).
  rewrite app_assoc. apply last_snoc.
Qed.

(** X6: whatever the listing, the output is the header followed by whole
    event blocks, each with its count line and as many particle lines as
    the count says, and by the closing tag when the run ends normally, in
    which case the number of events reported is the number of blocks; an
    aborted run leaves no part of the event it failed on. *)
Theorem output_is_whole_blocks (lines : list string) (beamE1 beamE2 : R)
    (xsec : option (R * R)) :
  let res := convert_UGHEPMC2LHE lines beamE1 beamE2 xsec in
  let header :=
    write_header beamE1 beamE2
      (fst (default (1%R, 3%R) xsec)) (snd (default (1%R, 3%R) xsec)) in
  exists blocks,
    Forall (fun b => exists k, event_block k b) blocks
    /\ match snd res with
       | Finished m =>
           m = length blocks
           /\ fst res = header ++ concat blocks ++ [Text "</LesHouchesEvents>"]
       | _ => fst res = header ++ concat blocks
       end.
Proof.
  intros res header. subst res header. unfold convert_UGHEPMC2LHE, run_events.
  destruct (default (1%R, 3%R) xsec) as [fid tot]. cbn [fst snd].
  generalize (write_header beamE1 beamE2 fid tot). intros hdr.
  destruct (events_loop_blocks (S (length lines)) lines hdr 0)
    as (blocks & Hout & Hall & Hfin).
  exists blocks. split; [exact Hall |].
  destruct (events_loop _ lines hdr 0) as [out r]. cbn [fst snd] in *.
  destruct r; cbn [fst snd]; try exact Hout.
  split; [apply Hfin; reflexivity |].
  rewrite Hout, <- app_assoc. reflexivity.
Qed.

(** X7: the closing tag of the document is the last line of the output
    exactly when the run ends normally; after any exception the document
    is left open. *)
Theorem closing_tag_iff_finished (lines : list string) (beamE1 beamE2 : R)
    (xsec : option (R * R)) :
  let res := convert_UGHEPMC2LHE lines beamE1 beamE2 xsec in
  last (fst res) = Some (Text "</LesHouchesEvents>")
  <-> exists m, snd res = Finished m.
Proof.
  intros res. subst res. unfold convert_UGHEPMC2LHE, run_events.
  destruct (default (1%R, 3%R) xsec) as [fid tot].
  assert (Hhdr : last (write_header beamE1 beamE2 fid tot)
                 = Some (Text "</init>")) by reflexivity.
  revert Hhdr. generalize (write_header beamE1 beamE2 fid tot).
  intros hdr Hhdr.
  destruct (events_loop_blocks (S (length lines)) lines hdr 0)
    as (blocks & Hout & Hall & _).
  destruct (events_loop _ lines hdr 0) as [out r]. cbn [fst snd] in *.
  assert (Hopen : last out <> Some (Text "</LesHouchesEvents>")).
  { rewrite Hout, last_app.
    destruct (last_concat_blocks blocks Hall) as [-> | ->];
      [rewrite Hhdr |]; discriminate. }
  destruct r; cbn [fst snd]; split; try (intros [m Hm]; discriminate Hm);
    try contradiction.
  - intros _. eauto.
  - intros _. apply last_snoc.
Qed.

(* ===================================================================== *)
(** * Edges of the event loop *)
(* ===================================================================== *)

Lemma read_particles_eof (ls : list string) (qs : list PLine)
    (iPar m : nat) (parV : list Particle) :
  tracks_ok iPar ls qs ->
  read_particles (length ls + S m) iPar ls parV = inr EmptyString.
Proof.
  revert qs iPar parV; induction ls as [| l ls IH];
    intros [| q qs] iPar parV; simpl; try tauto.
  intros (Hq & Hb & Hok). unfold read_particle. rewrite Hq, Hb.
  apply IH with (qs := qs), Hok.
Qed.

(** X8: when the file ends before the declared number of particle lines
    of an event was read, the run throws the track-line error and nothing
    of that event is written.  (What the message shows after its fixed
    text is the content of [line] after the failed [getline], which
    depends on whether the last line of the file ends with a newline; the
    statement leaves it open.) *)
Theorem truncated_event_aborts (k : nat) (eline uline : string)
    (ps : list string) (out : list OutLine) (nEvt : nat) :
  header_of k eline ->
  units_line uline ->
  (length ps < k)%nat ->
  (forall i l, ps !! i = Some l -> track_of i l) ->
  exists content,
    run_events (eline :: uline :: ps) out nEvt =
      (out, LogicError
              ("[convert_UGHEPMC2LHE] Failed to parse track line: "
                 ++ content)%string).
Proof.
  intros Hhead HU Hlen Htr.
  pose proof (header_of_bound _ _ Hhead) as Hk.
  destruct (track_of_tracks_ok ps 0) as [qs Hqs]; [simpl; lia | exact Htr |].
  destruct Hhead as (Hend & HE & iEvt & nVtx & Hscan).
  exists EmptyString.
  unfold run_events. cbn [events_loop].
  rewrite Hend, HE, Hscan. unfold units_line in HU. rewrite HU. simpl negb.
  cbv iota. destruct (Z.ltb_spec (Z.of_nat k) 0) as [Hneg | _]; [lia |].
  rewrite Nat2Z.id.
  replace k with (length ps + S (k - length ps - 1))%nat at 1 by lia.
  rewrite (read_particles_eof ps qs 0 _ _ Hqs). reflexivity.
Qed.

Lemma truncated_event_aborts_witness :
  exists content,
    run_events ["E 7 0 2"; "U GEV MM"; "P 1 0 11 0 0 10 10.511 0.000511 1"]
      [] 0
      = ([], LogicError
               ("[convert_UGHEPMC2LHE] Failed to parse track line: "
                  ++ content)%string).
Proof.
  apply (truncated_event_aborts 2).
  - repeat split; do 2 eexists; reflexivity.
  - reflexivity.
  - simpl. lia.
  - intros [| i] l Hl; simpl in Hl; [| discriminate]. injection Hl as <-.
    eexists. split; [reflexivity |]. simpl. repeat split; lia.
Defined.

(** X11: an event that declares no particle is written as a block of two
    photon lines with zero momentum, energy and mass, and counted. *)
Theorem empty_event_block (eline uline : string) (rest : list string)
    (out : list OutLine) (nEvt : nat) :
  header_of 0 eline ->
  units_line uline ->
  run_events (eline :: uline :: rest) out nEvt =
    run_events rest
      (out ++ [ Text "<event>"; EventCount 2;
                ParticleLine 22 (-1) "0 0" 0 0 0 0 0;
                ParticleLine 22 (-1) "0 0" 0 0 0 0 0;
                Text "</event>" ])
      (S nEvt).
Proof.
  intros Hhead HU.
  pose proof (run_events_event 0 eline uline [] rest [] out nEvt Hhead HU
                eq_refl I) as Hrun.
  cbn [app] in Hrun. rewrite Hrun.
  cbn [build replicate]. unfold write_event.
  rewrite add_fake_photons_cons. cbn [map length app].
  rewrite !write_fake_photon.
  replace (mZ (sum_final [])) with 0%R by reflexivity.
  replace (mE (sum_final [])) with 0%R by (symmetry; apply mE_origin).
  replace ((0 - 0) / 2)%R with 0%R by lra.
  replace ((0 + 0) / 2)%R with 0%R by lra.
  rewrite Rabs_R0. reflexivity.
Qed.

Lemma empty_event_block_witness :
  run_events ["E 1 0 0"; "U GEV MM"] [] 0 =
    ([ Text "<event>"; EventCount 2;
       ParticleLine 22 (-1) "0 0" 0 0 0 0 0;
       ParticleLine 22 (-1) "0 0" 0 0 0 0 0;
       Text "</event>" ], Finished 1).
Proof.
  rewrite (empty_event_block "E 1 0 0" "U GEV MM" [] [] 0).
  - reflexivity.
  - repeat split; do 2 eexists; reflexivity.
  - reflexivity.
Defined.

Lemma prefix_app_self (pat b : string) : String.prefix pat (pat ++ b) = true.
Proof.
  induction pat as [| x pat IH]; cbn [append String.prefix].
  - destruct b; reflexivity.
  - destruct (ascii_dec x x); [exact IH | congruence].
Qed.

Lemma contains_app_middle (pat a b : string) :
  contains pat (a ++ pat ++ b) = true.
Proof.
  induction a as [| x a IH].
  - cbn [append]. destruct (pat ++ b)%string eqn:Hp; cbn [contains];
      rewrite <- Hp, prefix_app_self; reflexivity.
  - change (String x a ++ pat ++ b)%string with (String x (a ++ pat ++ b)).
    cbn [contains]. rewrite IH. apply orb_true_r.
Qed.

(** X12: a line that holds the end marker anywhere ends the event loop
    when it is met at the head of the loop, even if it begins like an
    event line; the lines behind it are not read. *)
Theorem marker_anywhere_ends_loop (a b : string) (rest : list string)
    (out : list OutLine) (nEvt : nat) :
  run_events ((a ++ "END_EVENT_LISTING" ++ b)%string :: rest) out nEvt
    = (out, Finished nEvt).
Proof. apply run_events_end, contains_app_middle. Qed.

(* ===================================================================== *)
(** * More on the records of one event *)
(* ===================================================================== *)

(** X13: of the two synthesized photons, the one written first has the
    smaller pz, and their energies sum to the larger of |p4.Z| and p4.E,
    p4 being the sum accumulated over the FINAL records: the energy of
    the event is reproduced exactly when p4.E is at least |p4.Z|. *)
Theorem photon_energies_sum_to_max (parV : list Particle) :
  let p4 := sum_final parV in
  let phA := fake_photon ((mZ p4 + mE p4) / 2) in
  let phB := fake_photon ((mZ p4 - mE p4) / 2) in
  add_fake_photons parV = phB :: phA :: parV
  /\ (Pz (p phB) <= Pz (p phA))%R
  /\ (E (p phA) + E (p phB) = Rmax (Rabs (mZ p4)) (mE p4))%R.
Proof.
  intros p4 phA phB. subst phA phB.
  split; [apply add_fake_photons_cons |].
  rewrite !fake_photon_fields. cbn [p Pz E fZ fT].
  pose proof (mE_nonneg p4) as He. revert He.
  generalize (mE p4) (mZ p4). intros e z He. split; [lra |].
  unfold Rmax, Rabs.
  destruct (Rcase_abs ((z + e) / 2)), (Rcase_abs ((z - e) / 2)),
    (Rcase_abs z);
    match goal with |- context [Rle_dec ?a ?b] => destruct (Rle_dec a b) end;
    lra.
Qed.

(** X14: when a particle line passes the tests of line 69 at index [iPar]
    of a vector of [n] records and names a mother, the index [momI - 1]
    written on line 74 is that of a record stored before it, so both
    indices written in this turn of the loop are inside the vector. *)
Theorem mother_write_in_bounds (n iPar : nat) (line : string) (q : PLine) :
  Z.of_nat n <= INT_MAX ->
  (iPar < n)%nat ->
  scan_P line = Some q ->
  bad_track iPar q = false ->
  0 < P_momI q ->
  Z.of_nat (Z.to_nat (P_momI q - 1)) = P_momI q - 1
  /\ (Z.to_nat (P_momI q - 1) < iPar < n)%nat.
Proof.
  intros Hn Hi Hq Hb Hm.
  destruct (scan_P_range _ _ Hq) as [Hr _].
  apply bad_track_false in Hb; [| exact Hr | lia].
  destruct Hb as (_ & Hpar & Hlt). lia.
Qed.

Lemma mother_write_in_bounds_witness :
  exists q,
    scan_P "P 2 1 11 0 0 3 5 0.000511 1" = Some q
    /\ (Z.to_nat (P_momI q - 1) < 1 < 2)%nat.
Proof.
  eexists. split; [reflexivity |].
  apply (mother_write_in_bounds 2 1 "P 2 1 11 0 0 3 5 0.000511 1");
    try reflexivity.
  - unfold INT_MAX. lia.
  - lia.
Defined.

(** X15: in an event that was read, the number m + 2 printed in the first
    parent column of a particle whose parent index m is positive is the
    position, counted from 1, of the line of its mother in the block;
    that line is written before the particle's own line and with status
    2. *)
Theorem parent_column_points_to_mother (n : nat) (lines rest : list string)
    (parV : list Particle) (i : nat) (l : string) (q : PLine) :
  Z.of_nat n <= INT_MAX ->
  read_particles n 0 lines (replicate n Particle0) = inl (parV, rest) ->
  (i < n)%nat ->
  lines !! i = Some l ->
  scan_P l = Some q ->
  0 < P_momI q ->
  let pos := Z.to_nat (P_momI q + 2) in
  (pos - 1 < 2 + i)%nat
  /\ exists mother,
       parV !! Z.to_nat (P_momI q - 1) = Some mother
       /\ emitted parV !! (pos - 1)%nat = Some (write_particle mother)
       /\ status mother = 2.
Proof.
  intros Hn Hread Hi Hl Hq Hm pos. subst pos.
  destruct (read_event_records _ _ _ _ Hn Hread) as [_ Hrec].
  destruct (Hrec i Hi) as (l' & q' & st & Hl' & Hq' & _ & Hpar & Hlt & _).
  assert (l' = l) by congruence. subst l'.
  assert (q' = q) by congruence. subst q'.
  set (j := Z.to_nat (P_momI q - 1)).
  assert (Hj : (j < i)%nat) by lia.
  destruct (Hrec j ltac:(lia))
    as (lj & qj & stj & _ & _ & _ & _ & _ & Hlk & Hst).
  split; [lia |].
  eexists. split; [exact Hlk |].
  replace (Z.to_nat (P_momI q + 2) - 1)%nat with (2 + j)%nat by lia.
  rewrite emitted_original, Hlk. split; [reflexivity |].
  destruct Hst as [[-> _] | [_ Hnot]]; [reflexivity |].
  exfalso. apply Hnot. exists i, l, q. repeat split; auto; lia.
Qed.

Lemma parent_column_points_to_mother_witness :
  exists parV mother,
    read_particles 2 0 ex_tracks (replicate 2 Particle0) = inl (parV, [])
    /\ emitted parV !! 2%nat = Some (write_particle mother)
    /\ status mother = 2.
Proof.
  eexists.
  assert (Hread : read_particles 2 0 ex_tracks (replicate 2 Particle0)
                  = inl (_, [])) by reflexivity.
  assert (Hs : exists q, scan_P "P 2 1 11 0 0 3 5 0.000511 1" = Some q
                         /\ P_momI q = 1) by (eexists; split; reflexivity).
  destruct Hs as (q & Hq & Hm).
  destruct (parent_column_points_to_mother 2 ex_tracks [] _ 1 _ q
              ltac:(unfold INT_MAX; lia) Hread ltac:(lia) eq_refl Hq
              ltac:(lia)) as (_ & mother & _ & Hline & Hst).
  exists mother. rewrite Hm in Hline. simpl in Hline. auto.
Defined.

(** X16: when the particle loop succeeds it has read exactly the declared
    number of lines, leaves the lines behind them untouched for the event
    loop, and hands over a vector of the size it was given. *)
Theorem particle_loop_reads_declared_count (n : nat)
    (lines rest : list string) (parV : list Particle) :
  read_particles n 0 lines (replicate n Particle0) = inl (parV, rest) ->
  lines = take n lines ++ rest
  /\ length lines = (n + length rest)%nat
  /\ length parV = n.
Proof.
  intros Hread. pose proof (read_particles_size _ _ _ _ _ _ Hread) as Hsize.
  rewrite length_replicate in Hsize.
  apply read_particles_inl in Hread as (ls & qs & -> & Hlen & _ & _).
  subst n. rewrite take_app_length, length_app. auto.
Qed.

Lemma particle_loop_reads_declared_count_witness :
  exists parV,
    read_particles 2 0 (ex_tracks ++ [ex_surplus]) (replicate 2 Particle0)
      = inl (parV, [ex_surplus])
    /\ length parV = 2%nat.
Proof.
  eexists.
  assert (Hread : read_particles 2 0 (ex_tracks ++ [ex_surplus])
                    (replicate 2 Particle0) = inl (_, [ex_surplus]))
    by reflexivity.
  split; [exact Hread |].
  apply (particle_loop_reads_declared_count 2 _ _ _ Hread).
Defined.

(* ===================================================================== *)
(** * The conversion of a file and the entry point *)
(* ===================================================================== *)

Lemma convert_header_first (lines : list string) (beamE1 beamE2 : R)
    (fid tot : R) :
  exists more,
    fst (convert_UGHEPMC2LHE lines beamE1 beamE2 (Some (fid, tot)))
      = write_header beamE1 beamE2 fid tot ++ more.
Proof.
  unfold convert_UGHEPMC2LHE, run_events.
  change (default (1%R, 3%R) (Some (fid, tot))) with (fid, tot). cbv iota beta.
  generalize (write_header beamE1 beamE2 fid tot). intros hdr.
  destruct (events_loop_blocks (S (length lines)) lines hdr 0)
    as (blocks & Hout & _).
  destruct (events_loop _ lines hdr 0) as [out r]. cbn [fst] in Hout.
  subst out. destruct r; cbn [fst]; eauto.
  exists (concat blocks ++ [Text "</LesHouchesEvents>"]).
  rewrite app_assoc. reflexivity.
Qed.

Lemma read_xsec_blank (file : option string) :
  file = None \/ (exists s, file = Some s /\ skipws s = EmptyString) ->
  read_xsec file = (1%R, 3%R).
Proof.
  intros [-> | (s & -> & Hs)]; unfold read_xsec, extract_double.
  - reflexivity.
  - rewrite Hs. reflexivity.
Qed.

(** X17: when xsec.out is absent, empty or blank, the output file starts
    with the header whose cross-section line holds 1 and 3, whatever the
    listing holds and however the run ends. *)
Theorem blank_xsec_gives_defaults (fs : Files)
    (inFileName xsecName outFileName : string) (lines : list string)
    (beamE1 beamE2 : R) :
  read_lines fs inFileName = Some lines ->
  xsec_path inFileName = Some xsecName ->
  read_text fs xsecName = None
    \/ (exists s, read_text fs xsecName = Some s /\ skipws s = EmptyString) ->
  out_name inFileName = Some outFileName ->
  can_create fs outFileName = true ->
  exists more r,
    convert_file fs inFileName beamE1 beamE2 =
      Written outFileName (write_header beamE1 beamE2 1 3 ++ more) r.
Proof.
  intros Hin Hx Hblank Hout Hcreate. unfold convert_file.
  rewrite Hin, Hx, Hout, Hcreate, (read_xsec_blank _ Hblank).
  destruct (convert_header_first lines beamE1 beamE2 1 3) as [more Hmore].
  destruct (convert_UGHEPMC2LHE lines beamE1 beamE2 (Some (1%R, 3%R)))
    as [out r]. cbn [fst] in Hmore. subst out. eauto.
Qed.

Lemma blank_xsec_gives_defaults_witness :
  exists more r,
    convert_file
      (mkFiles (fun _ => Some ["E 1 0 x"]) (fun _ => Some "  ")
         (fun _ => true))
      "run/events.hepmc" 2510 2510 =
      Written "events.lhe" (write_header 2510 2510 1 3 ++ more) r.
Proof.
  apply (blank_xsec_gives_defaults _ "run/events.hepmc" "run/xsec.out"
           "events.lhe" ["E 1 0 x"]); try reflexivity.
  right. exists "  ". split; reflexivity.
Defined.

(** X18: called with a path of the form directory, stem, dot, extension
    and two beam energies, on a well-formed listing of N events, with no
    xsec.out beside it, [main] writes stem.lhe in the current directory,
    holding the header with the two energies and the cross sections 1 and
    3, the N event blocks and the closing tag, and returns 0. *)
Theorem main_converts_listing (atof : string -> R) (fs : Files)
    (prog pre stem ext e1 e2 : string) (ks : list nat)
    (evs : list EventText) (tail : list string) :
  dir_prefix pre ->
  contains "/" stem = false ->
  contains "/" ext = false ->
  contains "." ext = false ->
  Z.of_nat (String.length (pre ++ stem ++ "." ++ ext)) < npos ->
  read_lines fs (pre ++ stem ++ "." ++ ext)
    = Some (concat (map event_lines evs) ++ tail) ->
  Forall2 wf_event ks evs ->
  wf_tail tail ->
  read_text fs (pre ++ "xsec.out") = None ->
  can_create fs (stem ++ ".lhe") = true ->
  exists blocks,
    Forall2 event_block ks blocks
    /\ main atof fs [prog; (pre ++ stem ++ "." ++ ext)%string; e1; e2] =
         Ran (Written (stem ++ ".lhe")
                (write_header (atof e1) (atof e2) 1 3
                   ++ concat blocks ++ [Text "</LesHouchesEvents>"])
                (Finished (length evs)))
    /\ exit_status
         (main atof fs [prog; (pre ++ stem ++ "." ++ ext)%string; e1; e2])
       = Some 0.
Proof.
  intros Hpre Hstem Hext Hdot Hlen Hin Hevs Htail Hx Hcreate.
  destruct (run_events_wf_events ks evs Hevs) as (blocks & Hblocks & Hrun).
  exists blocks. split; [exact Hblocks |].
  assert (Hmain :
    main atof fs [prog; (pre ++ stem ++ "." ++ ext)%string; e1; e2] =
      Ran (Written (stem ++ ".lhe")
             (write_header (atof e1) (atof e2) 1 3
                ++ concat blocks ++ [Text "</LesHouchesEvents>"])
             (Finished (length evs)))).
  { unfold main, convert_file. rewrite Hin.
    rewrite xsec_path_of_prefix; [| assumption | | assumption].
    - rewrite out_name_of_stem by assumption.
      rewrite Hx, Hcreate. unfold read_xsec, extract_double.
      unfold convert_UGHEPMC2LHE.
      change (default (1%R, 3%R) (Some (1%R, 3%R))) with (1%R, 3%R).
      cbv iota beta.
      rewrite Hrun, run_events_wf_tail by exact Htail.
      rewrite <- app_assoc. reflexivity.
    - change ("." ++ ext)%string with (String "." ext).
      rewrite contains_char_app, slash_is_not_dot, Hstem, Hext. reflexivity. }
  split; [exact Hmain |]. rewrite Hmain. reflexivity.
Qed.

Lemma main_converts_listing_witness :
  exists blocks,
    Forall2 event_block [1%nat] blocks
    /\ main (fun _ => 2510%R)
         (mkFiles
            (fun _ => Some (concat (map event_lines [ex_event]) ++ []))
            (fun _ => None) (fun _ => true))
         ["convert_UGHEPMC2LHE"; ("run/" ++ "events" ++ "." ++ "hepmc")%string;
          "2510"; "2510"] =
         Ran (Written "events.lhe"
                (write_header 2510 2510 1 3
                   ++ concat blocks ++ [Text "</LesHouchesEvents>"])
                (Finished 1)).
Proof.
  destruct (main_converts_listing (fun _ => 2510%R)
              (mkFiles
                 (fun _ => Some (concat (map event_lines [ex_event]) ++ []))
                 (fun _ => None) (fun _ => true))
              "convert_UGHEPMC2LHE" "run/" "events" "hepmc" "2510" "2510"
              [1%nat] [ex_event] [])
    as (blocks & Hblocks & Hmain & _); try reflexivity.
  - right. exists "run". reflexivity.
  - constructor; [exact ex_event_wf | constructor].
  - exists [], []. repeat split. constructor.
  - exists blocks. split; [exact Hblocks | exact Hmain].
Defined.

(** X20: the sum kept in [p4] has the px, py and pz of the component-wise
    total of the FINAL records, and an energy that is never negative:
    adding a FINAL record replaces the energy by the absolute value of
    the sum, so that a record with negative energy is not subtracted. *)
Theorem accumulated_energy_is_absolute (parV : list Particle) :
  mX (sum_final parV) = Px (total_final parV)
  /\ mY (sum_final parV) = Py (total_final parV)
  /\ mZ (sum_final parV) = Pz (total_final parV)
  /\ (0 <= mE (sum_final parV))%R
  /\ forall pV,
       mE (sum_final (parV ++ [pV])) =
         if status pV =? 1
         then Rabs (mE (sum_final parV) + E (p pV))
         else mE (sum_final parV).
Proof.
  split; [apply sum_final_X |]. split; [apply sum_final_Y |].
  split; [apply sum_final_Z |]. split; [apply mE_nonneg |].
  intros pV. rewrite !sum_final_fold, fold_left_app. cbn [fold_left].
  unfold acc_final at 1. destruct (status pV =? 1); [| reflexivity].
  apply mE_add_assign.
Qed.
